(** * Migration engine (src/index.ts, sql/control_tables.sql)

    A shallow embedding of the identity map, the run ledger, the error sink,
    the jobs and the job runner of the legacy -> new migration script,
    followed by the properties of its specification.

    The Postgres target is an explicit state ([World]); every function of
    [index.ts] that awaits [target.query] is a computation in the state and
    exception monad [M].  A JavaScript exception is a [Throw] carrying its
    [message].  Each [target.query] call is recorded in the [journal] of the
    world, so that the order of the statements can be stated.

    The control tables behave as [control_tables.sql] declares them: primary
    keys, [unique (entity, new_id)], the [check] lists (as the types [Mode],
    [Status], [Stage]) and the serial ids.  Failures the schema does not
    declare (a lost connection, a value Postgres cannot encode) are outside
    the model: a statement on [migration_runs] or [migration_errors]
    succeeds, and a statement on [migration_map] fails only on its unique
    constraint.  The destination schema is not part of the sources; its
    statements are parameters ([Environment]) and may fail. *)

From Stdlib Require Import ZArith String Ascii DecimalString List Sorted Permutation Lia.
From stdpp Require Import gmap strings list fin_maps sorting.

Open Scope string_scope.

(* ===================================================================== *)
(** ** JavaScript values and strings *)
(* ===================================================================== *)

(** The values a legacy identifier or a source column can hold.  A string is
    a sequence of code units below 256; a number is an integer (legacy
    sequence keys are INT columns), printed by [String] as its decimal
    numeral. *)
Inductive jsval :=
| JNull
| JUndefined
| JNum (n : Z)
| JStr (s : string).

(** The TypeScript type [string | number] of [mapPut]'s [legacyId]. *)
Inductive legacyKey :=
| KNum (n : Z)
| KStr (s : string).

Definition key_val (k : legacyKey) : jsval :=
  match k with
  | KNum n => JNum n
  | KStr s => JStr s
  end.

Coercion key_val : legacyKey >-> jsval.

(** [String(v)]. *)
Definition js_String (v : jsval) : string :=
  match v with
  | JNull => "null"
  | JUndefined => "undefined"
  | JNum n => NilZero.string_of_int (Z.to_int n)
  | JStr s => s
  end.

(** JavaScript truthiness, as used by [!x], [x || y] and [if (x)]. *)
Definition truthy (v : jsval) : bool :=
  match v with
  | JNull | JUndefined => false
  | JNum n => negb (n =? 0)%Z
  | JStr s => negb (String.eqb s "")
  end.

(** Truthiness of a [string | null] result. *)
Definition truthy_id (o : option string) : bool :=
  match o with
  | None => false
  | Some s => negb (String.eqb s "")
  end.

(** [v ?? d] *)
Definition nullish (v d : jsval) : jsval :=
  match v with
  | JNull | JUndefined => d
  | _ => v
  end.

(** [v || d] *)
Definition js_or (v d : jsval) : jsval := if truthy v then v else d.

(** White space and line terminators removed by [String.prototype.trim],
    among the code units below 256: TAB, LF, VT, FF, CR, SP and NBSP. *)
Definition is_white (c : ascii) : bool :=
  let n := nat_of_ascii c in
  ((9 <=? n)%nat && (n <=? 13)%nat) || (n =? 32)%nat || (n =? 160)%nat.

Fixpoint trimStart (s : string) : string :=
  match s with
  | EmptyString => EmptyString
  | String c s' => if is_white c then trimStart s' else s
  end.

Fixpoint trimEnd (s : string) : string :=
  match s with
  | EmptyString => EmptyString
  | String c s' =>
      match trimEnd s' with
      | EmptyString => if is_white c then EmptyString else String c EmptyString
      | t => String c t
      end
  end.

Definition trim (s : string) : string := trimEnd (trimStart s).

(** [normalizeLegacyId], index.ts l.262-266. *)
Definition normalizeLegacyId (v : jsval) : option string :=
  match v with
  | JNull | JUndefined => None
  | _ =>
      let s := trim (js_String v) in
      if String.eqb s "" then None else Some s
  end.

(** [stripNullBytes], l.175-179: code unit 0 is removed. *)
Fixpoint remove_nul (s : string) : string :=
  match s with
  | EmptyString => EmptyString
  | String c s' =>
      if (nat_of_ascii c =? 0)%nat then remove_nul s' else String c (remove_nul s')
  end.

Definition stripNullBytes (v : jsval) : option string :=
  match v with
  | JNull | JUndefined => None
  | _ => Some (remove_nul (js_String v))
  end.

(** [sanitizeRequiredString], l.196-200. *)
Definition sanitizeRequiredString (v : jsval) : string :=
  match stripNullBytes v with
  | None => ""
  | Some cleaned => trim cleaned
  end.

(** A source row: column name -> value, in the order of the result set. *)
Definition Row := list (string * jsval).

(** [row.f] / [row[f]]: a missing property is [undefined]. *)
Fixpoint field (row : Row) (f : string) : jsval :=
  match row with
  | [] => JUndefined
  | (k, v) :: rest => if String.eqb k f then v else field rest f
  end.

(* ===================================================================== *)
(** ** Control tables (sql/control_tables.sql) *)
(* ===================================================================== *)

Inductive Mode := Full | Incremental.
Inductive Status := Running | Success | Failed.
Inductive Stage := Extract | Transform | Load | Validate.

(** [migration_runs]; the [id] of a row is its 1-based position (bigserial on
    a table the engine never deletes from).  The [rows_*] counters keep their
    default and are left out. *)
Record RunRow := {
  run_job_name : string;
  run_mode : Mode;
  run_status : Status;
  run_finished : bool;
  run_error_message : option string
}.

(** [migration_checkpoints], keyed by [job_name]. *)
Record CheckpointRow := {
  last_legacy_id : option string;
  last_updated_at : option nat
}.

(** [migration_errors]. *)
Record ErrorRow := {
  err_run_id : nat;
  err_job_name : string;
  err_legacy_id : string;
  err_stage : Stage;
  err_message : string;
  err_payload : Row
}.

(** The statements issued through [target.query], in order. *)
Inductive stmt :=
| SDdl
| SInsertRun (id : nat) (job : string)
| SUpdateRun (id : nat) (st : Status)
| SSelectMap (entity legacy : string)
| SUpsertMap (entity legacy new : string)
| SInsertError (run : nat) (stage : Stage)
| SSelectStates
| SDestSelect (table : string)
| SDestUpsert (table id : string).

Inductive ConsoleLine :=
| CProgress (job : string) (lidos : nat)
| CDone (job : string) (lidos inseridos : nat)
| CFailed (job : string) (msg : string).

(** What index.ts uses but does not define: the destination schema
    (novo.sql) behind the per-entity [insert ... on conflict] statements and
    behind the [select]s on the tables [state], [gender] and [semester];
    [String.prototype.toUpperCase] and [toLowerCase]; whether [Number(s)] is
    a finite number; and the [uuidv7] generator ([uuidv7 n] is the n-th
    identifier minted by the process).  A destination statement either fails
    with a message, leaving the tables as they were, or yields the new
    tables. *)
Class Environment := {
  Dest : Type;
  dest_upsert : string -> string -> list (option string) -> Row -> Dest -> string + Dest;
  select_states : Dest -> list (jsval * string);
  select_gender_by_name : string -> Dest -> option string;
  select_default_gender : Dest -> option string;
  select_default_semester : Dest -> option string;
  toUpperCase : string -> string;
  toLowerCase : string -> string;
  is_finite_number : string -> bool;
  uuidv7 : nat -> string
}.

Section Engine.
Context `{Env : Environment}.

(** The target store and the process around it.  [migration_map] maps
    [(entity, legacy_id)], its primary key, to [new_id]. *)
Record World := {
  migration_runs : list RunRow;
  migration_checkpoints : gmap string CheckpointRow;
  migration_map : gmap (string * string) string;
  migration_errors : list ErrorRow;
  dest : Dest;
  journal : list stmt;
  console : list ConsoleLine;
  minted : nat
}.

Definition set_runs (r : list RunRow) (w : World) : World :=
  {| migration_runs := r; migration_checkpoints := migration_checkpoints w;
     migration_map := migration_map w; migration_errors := migration_errors w;
     dest := dest w; journal := journal w; console := console w; minted := minted w |}.

Definition set_map (m : gmap (string * string) string) (w : World) : World :=
  {| migration_runs := migration_runs w; migration_checkpoints := migration_checkpoints w;
     migration_map := m; migration_errors := migration_errors w;
     dest := dest w; journal := journal w; console := console w; minted := minted w |}.

Definition set_errors (e : list ErrorRow) (w : World) : World :=
  {| migration_runs := migration_runs w; migration_checkpoints := migration_checkpoints w;
     migration_map := migration_map w; migration_errors := e;
     dest := dest w; journal := journal w; console := console w; minted := minted w |}.

Definition set_dest (d : Dest) (w : World) : World :=
  {| migration_runs := migration_runs w; migration_checkpoints := migration_checkpoints w;
     migration_map := migration_map w; migration_errors := migration_errors w;
     dest := d; journal := journal w; console := console w; minted := minted w |}.

Definition set_console (c : list ConsoleLine) (w : World) : World :=
  {| migration_runs := migration_runs w; migration_checkpoints := migration_checkpoints w;
     migration_map := migration_map w; migration_errors := migration_errors w;
     dest := dest w; journal := journal w; console := c; minted := minted w |}.

Definition set_minted (n : nat) (w : World) : World :=
  {| migration_runs := migration_runs w; migration_checkpoints := migration_checkpoints w;
     migration_map := migration_map w; migration_errors := migration_errors w;
     dest := dest w; journal := journal w; console := console w; minted := n |}.

(** One more [target.query] call. *)
Definition log (s : stmt) (w : World) : World :=
  {| migration_runs := migration_runs w; migration_checkpoints := migration_checkpoints w;
     migration_map := migration_map w; migration_errors := migration_errors w;
     dest := dest w; journal := journal w ++ [s]; console := console w; minted := minted w |}.

(* ===================================================================== *)
(** ** The monad of the engine *)
(* ===================================================================== *)

Inductive result (A : Type) :=
| Ok (a : A)
| Throw (msg : string).
Global Arguments Ok {A} a.
Global Arguments Throw {A} msg.

Definition M (A : Type) : Type := World -> result A * World.

Definition ret {A} (a : A) : M A := fun w => (Ok a, w).

Definition bind {A B} (c : M A) (k : A -> M B) : M B :=
  fun w =>
    match c w with
    | (Ok a, w') => k a w'
    | (Throw e, w') => (Throw e, w')
    end.

(** [try { c } catch (e) { h(e.message) }] *)
Definition try_catch {A} (c : M A) (h : string -> M A) : M A :=
  fun w =>
    match c w with
    | (Ok a, w') => (Ok a, w')
    | (Throw e, w') => h e w'
    end.

Definition console_log (l : ConsoleLine) : M unit :=
  fun w => (Ok tt, set_console (console w ++ [l]) w).

End Engine.

Declare Scope engine_scope.
Delimit Scope engine_scope with engine.
Notation "x <- c1 ;; c2" := (bind c1 (fun x => c2))
  (at level 100, c1 at next level, right associativity) : engine_scope.
Notation "c1 ;; c2" := (bind c1 (fun _ => c2))
  (at level 100, right associativity) : engine_scope.
Open Scope engine_scope.

Section IdentityMap.
Context `{Env : Environment}.

(* ===================================================================== *)
(** ** RunLedger: startRun / endRun (index.ts l.209-226) *)
(* ===================================================================== *)

Definition startRun (mode : Mode) (jobName : string) : M nat :=
  fun w =>
    let id := S (length (migration_runs w)) in
    let row := {| run_job_name := jobName; run_mode := mode; run_status := Running;
                  run_finished := false; run_error_message := None |} in
    (Ok id, log (SInsertRun id jobName) (set_runs (migration_runs w ++ [row]) w)).

Definition finish_row (status : Status) (err : option string) (r : RunRow) : RunRow :=
  {| run_job_name := run_job_name r; run_mode := run_mode r; run_status := status;
     run_finished := true; run_error_message := err |}.

(** [update migration_runs set ... where id=$1]: no row has id 0. *)
Definition endRun (runId : nat) (status : Status) (err : option string) : M unit :=
  fun w =>
    let runs :=
      match runId with
      | O => migration_runs w
      | S i => alter (finish_row status err) i (migration_runs w)
      end in
    (Ok tt, log (SUpdateRun runId status) (set_runs runs w)).

(* ===================================================================== *)
(** ** IdentityMap (index.ts l.228-293) *)
(* ===================================================================== *)

(** [unique (entity, new_id)]: is [new] already the [new_id] of another
    legacy key of [entity]? *)
Definition claimed_elsewhere (entity legacy new : string)
    (m : gmap (string * string) string) : bool :=
  existsb (fun r : string * string * string =>
             bool_decide (r.1.1 = entity) && negb (bool_decide (r.1.2 = legacy))
             && bool_decide (r.2 = new))
          (map_to_list m).

Definition unique_violation : string :=
  "duplicate key value violates unique constraint migration_map_entity_new_id_key".

(** [insert into migration_map ... on conflict (entity, legacy_id) do update
    set new_id=excluded.new_id]: the primary key arbitrates the conflict, the
    second unique constraint raises. *)
Definition mapPut (entity : string) (legacyId : jsval) (newId : string) : M unit :=
  fun w =>
    let l := js_String legacyId in
    let w1 := log (SUpsertMap entity l newId) w in
    if claimed_elsewhere entity l newId (migration_map w)
    then (Throw unique_violation, w1)
    else (Ok tt, set_map (<[(entity, l) := newId]> (migration_map w)) w1).

Definition mapGet (entity : string) (legacyId : jsval) : M (option string) :=
  match legacyId with
  | JNull | JUndefined => ret None
  | _ =>
      fun w =>
        let l := js_String legacyId in
        (Ok (migration_map w !! (entity, l)), log (SSelectMap entity l) w)
  end.

(** [newId()]: the next identifier of the generator. *)
Definition newId : M string :=
  fun w => (Ok (uuidv7 (minted w)), set_minted (S (minted w)) w).

Definition resolveId (entity : string) (legacyId : jsval) : M string :=
  existing <- mapGet entity legacyId ;;
  match existing with
  | Some id => ret id
  | None => newId
  end.

Definition mapPutBoth (entity : string) (legacyInt legacyUuid : jsval) (newId : string)
    : M unit :=
  let a := normalizeLegacyId legacyInt in
  let b := normalizeLegacyId legacyUuid in
  (match a with
   | Some a' => mapPut entity (JStr a') newId
   | None => ret tt
   end) ;;
  match b with
  | Some b' => if bool_decide (b ≠ a) then mapPut entity (JStr b') newId else ret tt
  | None => ret tt
  end.

Fixpoint mapGetAny (entity : string) (candidates : list jsval) : M (option string) :=
  match candidates with
  | [] => ret None
  | c :: rest =>
      match normalizeLegacyId c with
      | None => mapGetAny entity rest
      | Some v =>
          id <- mapGet entity (JStr v) ;;
          if truthy_id id then ret id else mapGetAny entity rest
      end
  end.

End IdentityMap.

Section Orchestrator.
Context `{Env : Environment}.

(* ===================================================================== *)
(** ** Jobs (index.ts l.6-21, l.302-853) *)
(* ===================================================================== *)

(** [Ctx]; the two connections are the source snapshot of [Process] and the
    [World]. *)
Record Ctx := {
  ctx_mode : Mode;
  ctx_tableFilter : option string;
  stateByUf : gmap string string
}.

Record Job := {
  key : string;
  level : Z;
  sourceTable : string;
  pk : string;
  extractSql : Mode -> string;
  upsert : Row -> Ctx -> M bool
}.

(** The module-level constants of index.ts (l.23-40): the source pool, as the
    answer of the legacy database to each query text (rows, or the message of
    the error it raises), and the command line. *)
Record Process := {
  source : string -> string + list Row;
  mode : Mode;
  tableFilter : option string;
  batchSize : nat
}.

(** A destination statement [insert into <table>(id, ...) ... on conflict
    ... do update ...] with its identifier, the foreign identifiers it was
    given and the row its other parameters are computed from. *)
Definition targetUpsert (table id : string) (refs : list (option string)) (row : Row)
    : M unit :=
  fun w =>
    let w1 := log (SDestUpsert table id) w in
    match dest_upsert table id refs row (dest w) with
    | inl msg => (Throw msg, w1)
    | inr d => (Ok tt, set_dest d w1)
    end.

(** A [select] on a destination table. *)
Definition targetSelect {A} (table : string) (q : Dest -> A) : M A :=
  fun w => (Ok (q (dest w)), log (SDestSelect table) w).

(** The own properties of [genderMap], l.131-139. *)
Definition genderMap (raw : string) : option string :=
  if String.eqb raw "masculino" then Some "Masculino"
  else if String.eqb raw "feminino" then Some "Feminino"
  else if String.eqb raw "outro" then Some "Outro"
  else if String.eqb raw "ambos" then Some "Outro"
  else if String.eqb raw "m" then Some "Masculino"
  else if String.eqb raw "f" then Some "Feminino"
  else if String.eqb raw "o" then Some "Outro"
  else None.

(** [!Number.isNaN(Number(v)) && Number.isFinite(Number(v))] *)
Definition numeric_like (v : jsval) : bool :=
  match v with
  | JNum _ => true
  | JStr s => is_finite_number s
  | JNull | JUndefined => false
  end.

(** [getGenderIdFromLegacy], l.118-150. *)
Definition getGenderIdFromLegacy (value : jsval) : M (option string) :=
  match value with
  | JNull | JUndefined => ret None
  | _ =>
      mapped <- (if numeric_like value then mapGet "gender" value else ret None) ;;
      if truthy_id mapped then ret mapped
      else
        let raw := toLowerCase (sanitizeRequiredString value) in
        if String.eqb raw "" then ret None
        else
          let mappedName :=
            match genderMap raw with
            | Some name => name
            | None => sanitizeRequiredString value
            end in
          targetSelect "gender" (select_gender_by_name mappedName)
  end.

Definition getDefaultGenderId : M (option string) :=
  targetSelect "gender" select_default_gender.

Definition getDefaultSemesterId : M (option string) :=
  targetSelect "semester" select_default_semester.

(** [dimUpsert], l.302-312. *)
Definition dimUpsert (table : string) (row : Row) (_ctx : Ctx) : M bool :=
  id <- resolveId table (field row "id") ;;
  targetUpsert table id [] row ;;
  mapPut table (field row "id") id ;;
  ret true.

Definition state_job : Job := {|
  key := "state"; level := 1; sourceTable := "tb_estados"; pk := "id";
  extractSql := fun _ => "select id, estado as name, uf as acronym from tb_estados";
  upsert := fun row _ =>
    id <- resolveId "state" (field row "id") ;;
    targetUpsert "state" id [] row ;;
    mapPut "state" (field row "id") id ;;
    ret true
|}.

Definition gender_job : Job := {|
  key := "gender"; level := 1; sourceTable := "tb_sexo"; pk := "id";
  extractSql := fun _ =>
    "select id, sexo as name, created_at, created_at as updated_at from tb_sexo";
  upsert := dimUpsert "gender"
|}.

Definition civil_status_job : Job := {|
  key := "civil_status"; level := 1; sourceTable := "tb_estado_civil"; pk := "id";
  extractSql := fun _ =>
    "select id, estado_civil as name, created_at, created_at as updated_at from tb_estado_civil";
  upsert := dimUpsert "civil_status"
|}.

Definition education_level_job : Job := {|
  key := "education_level"; level := 1; sourceTable := "tb_escolaridade"; pk := "id";
  extractSql := fun _ =>
    "select id, nivel as name, null as created_at, null as updated_at from tb_escolaridade";
  upsert := dimUpsert "education_level"
|}.

Definition course_job : Job := {|
  key := "course"; level := 1; sourceTable := "tb_confcurso"; pk := "co_seq_confcurso";
  extractSql := fun _ =>
    "select co_seq_confcurso as id, no_curso as name, dt_publicado as created_at, dt_publicado as updated_at from tb_confcurso";
  upsert := dimUpsert "course"
|}.

Definition educational_institution_job : Job := {|
  key := "educational_institution"; level := 1; sourceTable := "tb_confinstituicao";
  pk := "co_seq_confinstituicao";
  extractSql := fun _ =>
    "select co_seq_confinstituicao as id, no_instituicao as name, dt_publicado as created_at, dt_publicado as updated_at from tb_confinstituicao";
  upsert := dimUpsert "educational_institution"
|}.

Definition semester_job : Job := {|
  key := "semester"; level := 1; sourceTable := "tb_semestre"; pk := "id";
  extractSql := fun _ =>
    "select id, semestre as name, null as created_at, null as updated_at from tb_semestre";
  upsert := dimUpsert "semester"
|}.

Definition shift_job : Job := {|
  key := "shift"; level := 1; sourceTable := "tb_turno"; pk := "id";
  extractSql := fun _ =>
    "select id, turno as name, created_at, created_at as updated_at from tb_turno";
  upsert := dimUpsert "shift"
|}.

Definition user_job : Job := {|
  key := "user"; level := 1; sourceTable := "tb_usuario"; pk := "co_seq_usuario";
  extractSql := fun _ => "select * from tb_usuario";
  upsert := fun row _ =>
    id <- resolveId "user" (field row "co_seq_usuario") ;;
    targetUpsert "user" id [] row ;;
    mapPutBoth "user" (field row "co_seq_usuario") (field row "id") id ;;
    ret true
|}.

Definition company_job : Job := {|
  key := "company"; level := 2; sourceTable := "tb_empresa"; pk := "co_seq_empresa";
  extractSql := fun _ => "select * from tb_empresa";
  upsert := fun row ctx =>
    id <- resolveId "company" (field row "co_seq_empresa") ;;
    userId <- mapGet "user" (field row "user_id") ;;
    let stateId :=
      stateByUf ctx !! toUpperCase (js_String (js_or (field row "ds_uf") (JStr ""))) in
    if negb (truthy_id userId) || negb (truthy_id stateId) then ret false
    else
      targetUpsert "company" id [userId; stateId] row ;;
      mapPutBoth "company" (field row "co_seq_empresa") (field row "id") id ;;
      ret true
|}.

Definition institutions_job : Job := {|
  key := "institutions"; level := 2; sourceTable := "tb_instituicao";
  pk := "co_seq_instituicao";
  extractSql := fun _ => "select * from tb_instituicao";
  upsert := fun row ctx =>
    id <- resolveId "institutions" (field row "co_seq_instituicao") ;;
    userId <- mapGet "user" (field row "user_id") ;;
    let stateId :=
      stateByUf ctx !! toUpperCase (js_String (js_or (field row "ds_uf") (JStr ""))) in
    if negb (truthy_id userId) || negb (truthy_id stateId) then ret false
    else
      targetUpsert "institutions" id [userId; stateId] row ;;
      mapPutBoth "institutions" (field row "co_seq_instituicao") (field row "id") id ;;
      ret true
|}.

Definition student_job : Job := {|
  key := "student"; level := 2; sourceTable := "tb_estudante"; pk := "id";
  extractSql := fun _ => "select * from tb_estudante";
  upsert := fun row _ =>
    id <- resolveId "student" (field row "id") ;;
    userId <- mapGet "user" (field row "usuario_id") ;;
    if negb (truthy_id userId) then ret false
    else
      legacyGender <- getGenderIdFromLegacy (field row "genero") ;;
      genderId <- (if truthy_id legacyGender then ret legacyGender
                   else getDefaultGenderId) ;;
      civilId <- mapGet "civil_status" (field row "estado_civil_id") ;;
      stateId <- mapGet "state" (field row "estado_id") ;;
      eduId <- mapGet "education_level" (field row "nivel_escolaridade_id") ;;
      courseId <- mapGet "course" (field row "curso_id") ;;
      eduInstId <- mapGet "educational_institution" (field row "instituicao_id") ;;
      mappedSemester <- mapGet "semester" (field row "semestre_id") ;;
      semesterId <- (if truthy_id mappedSemester then ret mappedSemester
                     else getDefaultSemesterId) ;;
      shiftId <- mapGet "shift" (field row "turno_id") ;;
      targetUpsert "student" id
        [userId; genderId; civilId; stateId; eduId; courseId; eduInstId; semesterId;
         shiftId; shiftId] row ;;
      mapPut "student" (field row "id") id ;;
      ret true
|}.

Definition company_supervisor_job : Job := {|
  key := "company_supervisor"; level := 3; sourceTable := "supervisor_empresas";
  pk := "id";
  extractSql := fun _ => "select * from supervisor_empresas";
  upsert := fun row _ =>
    id <- resolveId "company_supervisor" (field row "id") ;;
    companyId <- mapGet "company" (field row "empresa_id") ;;
    if negb (truthy_id companyId) then ret false
    else
      targetUpsert "company_supervisor" id [companyId] row ;;
      mapPut "company_supervisor" (field row "id") id ;;
      ret true
|}.

Definition company_representative_job : Job := {|
  key := "company_representative"; level := 3; sourceTable := "representante_empresas";
  pk := "id";
  extractSql := fun _ => "select * from representante_empresas";
  upsert := fun row _ =>
    companyId <- mapGet "company" (field row "empresa_id") ;;
    if negb (truthy_id companyId) then ret false
    else
      id <- resolveId "company_representative" (field row "id") ;;
      targetUpsert "company_representative" id [companyId] row ;;
      mapPut "company_representative" (field row "id") id ;;
      ret true
|}.

Definition institution_supervisor_job : Job := {|
  key := "institution_supervisor"; level := 3; sourceTable := "supervisor_instituicaos";
  pk := "id";
  extractSql := fun _ => "select * from supervisor_instituicaos";
  upsert := fun row _ =>
    institutionId <- mapGet "institutions" (field row "instituicao_id") ;;
    if negb (truthy_id institutionId) then ret false
    else
      id <- resolveId "institution_supervisor" (field row "id") ;;
      targetUpsert "institution_supervisor" id [institutionId] row ;;
      mapPut "institution_supervisor" (field row "id") id ;;
      ret true
|}.

Definition institution_representative_job : Job := {|
  key := "institution_representative"; level := 3;
  sourceTable := "representante_instituicaos"; pk := "id";
  extractSql := fun _ => "select * from representante_instituicaos";
  upsert := fun row _ =>
    institutionId <- mapGet "institutions" (field row "instituicao_id") ;;
    if negb (truthy_id institutionId) then ret false
    else
      id <- resolveId "institution_representative" (field row "id") ;;
      targetUpsert "institution_representative" id [institutionId] row ;;
      mapPut "institution_representative" (field row "id") id ;;
      ret true
|}.

Definition internship_commitment_term_job : Job := {|
  key := "internship_commitment_term"; level := 4; sourceTable := "tb_termo";
  pk := "co_seq_termo";
  extractSql := fun _ => "select * from tb_termo";
  upsert := fun row _ =>
    id <- resolveId "internship_commitment_term" (field row "co_seq_termo") ;;
    companyId <- mapGetAny "company" [field row "empresa_id"] ;;
    companySupervisorId <-
      mapGet "company_supervisor" (field row "supervisor_empresa_id") ;;
    companyRepresentativeId <-
      mapGet "company_representative" (field row "representante_empresa_id") ;;
    institutionId <- mapGetAny "institutions" [field row "instituicao_id"] ;;
    institutionSupervisorId <-
      mapGet "institution_supervisor" (field row "supervisor_instituicao_id") ;;
    institutionRepresentativeId <-
      mapGet "institution_representative" (field row "representante_instituicao_id") ;;
    studentId <- mapGet "student" (field row "estudante_id") ;;
    if negb (truthy_id companyId) || negb (truthy_id companySupervisorId)
       || negb (truthy_id companyRepresentativeId) || negb (truthy_id institutionId)
       || negb (truthy_id institutionSupervisorId)
       || negb (truthy_id institutionRepresentativeId) || negb (truthy_id studentId)
    then ret false
    else
      targetUpsert "internship_commitment_term" id
        [companyId; companySupervisorId; companyRepresentativeId; institutionId;
         institutionSupervisorId; institutionRepresentativeId; studentId] row ;;
      mapPutBoth "internship_commitment_term" (field row "co_seq_termo")
        (field row "id") id ;;
      ret true
|}.

Definition signed_internship_commitment_term_job : Job := {|
  key := "signed_internship_commitment_term"; level := 5; sourceTable := "termos";
  pk := "id";
  extractSql := fun _ => "select * from termos";
  upsert := fun row _ =>
    id <- resolveId "signed_internship_commitment_term" (field row "id") ;;
    termId <-
      mapGetAny "internship_commitment_term" [field row "id"; field row "termoId"] ;;
    companyId <- mapGetAny "company" [field row "empresaId"; field row "empresa_id"] ;;
    studentId <- mapGet "student" (field row "estudanteId") ;;
    if negb (truthy_id termId) || negb (truthy_id companyId) || negb (truthy_id studentId)
    then ret false
    else
      targetUpsert "signed_internship_commitment_term" id [termId; companyId; studentId]
        row ;;
      mapPut "signed_internship_commitment_term" (field row "id") id ;;
      ret true
|}.

(** The registry, l.314-853. *)
Definition jobs : list Job :=
  [state_job; gender_job; civil_status_job; education_level_job; course_job;
   educational_institution_job; semester_job; shift_job; user_job;
   company_job; institutions_job; student_job;
   company_supervisor_job; company_representative_job; institution_supervisor_job;
   institution_representative_job;
   internship_commitment_term_job; signed_internship_commitment_term_job].

(* ===================================================================== *)
(** ** runJob and main (index.ts l.855-906) *)
(* ===================================================================== *)

Definition skipped_message : string :=
  "skipped: upsert returned false (missing FK or mapping)".

(** [insert into migration_errors(run_id,job_name,legacy_id,stage,
    error_message,payload)]. *)
Definition error_entry (runId : nat) (job : Job) (row : Row) (stage : Stage)
    (msg : string) : ErrorRow :=
  {| err_run_id := runId; err_job_name := key job;
     err_legacy_id := js_String (nullish (field row (pk job)) (JStr ""));
     err_stage := stage; err_message := msg; err_payload := row |}.

Definition recordError (runId : nat) (job : Job) (row : Row) (stage : Stage)
    (msg : string) : M unit :=
  fun w =>
    (Ok tt, log (SInsertError runId stage)
                (set_errors (migration_errors w ++ [error_entry runId job row stage msg]) w)).

(** [lidos % batchSize === 0]; the remainder by zero is NaN. *)
Definition at_batch (lidos batch : nat) : bool :=
  match batch with
  | O => false
  | S _ => (lidos mod batch =? 0)%nat
  end.

(** The body of the [for (const row of rows)] loop, on the counters
    [(lidos, inseridos)]. *)
Definition processRow (p : Process) (job : Job) (ctx : Ctx) (runId : nat) (row : Row)
    (c : nat * nat) : M (nat * nat) :=
  inseridos <-
    try_catch
      (ok <- upsert job row ctx ;;
       if ok : bool then ret (S c.2)
       else (recordError runId job row Validate skipped_message ;; ret c.2))
      (fun e => recordError runId job row Load e ;; ret c.2) ;;
  let lidos := S c.1 in
  (if at_batch lidos (batchSize p) then console_log (CProgress (key job) lidos)
   else ret tt) ;;
  ret (lidos, inseridos).

Fixpoint forRows (p : Process) (job : Job) (ctx : Ctx) (runId : nat) (rows : list Row)
    (c : nat * nat) : M (nat * nat) :=
  match rows with
  | [] => ret c
  | row :: rest =>
      c' <- processRow p job ctx runId row c ;;
      forRows p job ctx runId rest c'
  end.

(** [ctx.tableFilter && ctx.tableFilter !== job.key] *)
Definition filtered_out (ctx : Ctx) (job : Job) : bool :=
  match ctx_tableFilter ctx with
  | None => false
  | Some f => negb (String.eqb f "") && negb (String.eqb f (key job))
  end.

(** [source.query(sql)] *)
Definition sourceQuery (p : Process) (sql : string) : M (list Row) :=
  fun w =>
    match source p sql with
    | inl msg => (Throw msg, w)
    | inr rows => (Ok rows, w)
    end.

Definition runJob (p : Process) (job : Job) (ctx : Ctx) : M unit :=
  if filtered_out ctx job then ret tt
  else
    runId <- startRun (mode p) (key job) ;;
    try_catch
      (rows <- sourceQuery p (extractSql job (ctx_mode ctx)) ;;
       c <- forRows p job ctx runId rows (0, 0)%nat ;;
       endRun runId Success None ;;
       console_log (CDone (key job) c.1 c.2))
      (fun e =>
         endRun runId Failed (Some e) ;;
         console_log (CFailed (key job) e)).

(** [jobs.sort((a, b) => a.level - b.level)]: a stable sort by level. *)
Fixpoint insert_by_level (j : Job) (l : list Job) : list Job :=
  match l with
  | [] => [j]
  | x :: r => if (level j <=? level x)%Z then j :: l else x :: insert_by_level j r
  end.

Fixpoint sort_by_level (l : list Job) : list Job :=
  match l with
  | [] => []
  | j :: r => insert_by_level j (sort_by_level r)
  end.

(** [create table if not exists ...]: the control tables are there. *)
Definition ensureControlTables : M unit :=
  fun w => (Ok tt, log SDdl w).

Definition bootstrapStates : M (gmap string string) :=
  fun w =>
    (Ok (fold_left (fun m (r : jsval * string) => <[toUpperCase (js_String r.1) := r.2]> m)
                   (select_states (dest w)) ∅),
     log SSelectStates w).

Fixpoint forJobs (p : Process) (js : list Job) (ctx : Ctx) : M unit :=
  match js with
  | [] => ret tt
  | job :: rest => runJob p job ctx ;; forJobs p rest ctx
  end.

(** The body of [main], for any registry in place of [jobs]. *)
Definition main_on (p : Process) (registry : list Job) : M unit :=
  ensureControlTables ;;
  states <- bootstrapStates ;;
  let ctx := {| ctx_mode := mode p; ctx_tableFilter := tableFilter p;
                stateByUf := states |} in
  forJobs p (sort_by_level registry) ctx.

Definition main (p : Process) : M unit := main_on p jobs.

End Orchestrator.

(* ===================================================================== *)
(** ** Notions used by the properties *)
(* ===================================================================== *)

(** No code unit of [s] is white space. *)
Fixpoint no_white (s : string) : bool :=
  match s with
  | EmptyString => true
  | String c s' => negb (is_white c) && no_white s'
  end.

Section Notions.
Context `{Env : Environment}.

(** Within an entity, a canonical id is claimed by at most one legacy key. *)
Definition one_legacy_per_id (m : gmap (string * string) string) : Prop :=
  forall e l1 l2 n, m !! (e, l1) = Some n -> m !! (e, l2) = Some n -> l1 = l2.

(** The resolve-then-commit step shared by the upserts (l.303 and l.310):
    the id committed is the one [resolveId] returned. *)
Definition resolve_commit (entity : string) (legacyId : legacyKey) : M unit :=
  id <- resolveId entity legacyId ;;
  mapPut entity legacyId id.

Fixpoint resolve_commits (ks : list (string * legacyKey)) (w : World) : World :=
  match ks with
  | [] => w
  | (e, k) :: rest => resolve_commits rest (resolve_commit e k w).2
  end.

(** Statements on the identity map and on the destination tables. *)
Definition data_stmt (s : stmt) : bool :=
  match s with
  | SSelectMap _ _ | SUpsertMap _ _ _ | SDestSelect _ | SDestUpsert _ _ => true
  | _ => false
  end.

(** Statements on [migration_runs]. *)
Definition run_stmt (s : stmt) : bool :=
  match s with
  | SInsertRun _ _ | SUpdateRun _ _ => true
  | _ => false
  end.

(** The run-ledger statements of a journal, in order. *)
Definition ledger (js : list stmt) : list stmt := List.filter run_stmt js.

(** [w'] is [w] after statements on the identity map and the destination
    only: the control tables of the orchestrator are as they were. *)
Definition control_kept (w w' : World) : Prop :=
  migration_runs w' = migration_runs w
  /\ migration_errors w' = migration_errors w
  /\ migration_checkpoints w' = migration_checkpoints w
  /\ exists js, journal w' = (journal w ++ js)%list /\ forallb data_stmt js = true.

Definition data_op {A} (c : M A) : Prop := forall w, control_kept w (c w).2.

(** A job whose upsert only works on the identity map and the destination,
    as the upserts of the registry do. *)
Definition data_job (j : Job) : Prop := forall row ctx, data_op (upsert j row ctx).

(** [w'] is [w] after statements that leave [migration_runs] and
    [migration_checkpoints] alone. *)
Definition ledger_kept (w w' : World) : Prop :=
  migration_runs w' = migration_runs w
  /\ migration_checkpoints w' = migration_checkpoints w
  /\ exists js, journal w' = (journal w ++ js)%list /\ ledger js = [].

(** How the run of a job ends: [failed] with the message when the
    extraction query raises, [success] otherwise. *)
Definition run_outcome (p : Process) (ctx : Ctx) (j : Job) : Status * option string :=
  match source p (extractSql j (ctx_mode ctx)) with
  | inl msg => (Failed, Some msg)
  | inr _ => (Success, None)
  end.

Definition closed_run (p : Process) (ctx : Ctx) (j : Job) : RunRow :=
  {| run_job_name := key j; run_mode := mode p;
     run_status := (run_outcome p ctx j).1; run_finished := true;
     run_error_message := (run_outcome p ctx j).2 |}.

(** The jobs that pass the table filter. *)
Definition ran (ctx : Ctx) (js : list Job) : list Job :=
  List.filter (fun j => negb (filtered_out ctx j)) js.

(** The ledger statements of running [js] one after the other, the table
    holding [n] runs at the start. *)
Fixpoint run_trace (p : Process) (ctx : Ctx) (n : nat) (js : list Job) : list stmt :=
  match js with
  | [] => []
  | j :: rest =>
      SInsertRun (S n) (key j) :: SUpdateRun (S n) (run_outcome p ctx j).1
        :: run_trace p ctx (S n) rest
  end.


(** The context [main] builds. *)
Definition main_ctx (p : Process) (w : World) : Ctx :=
  {| ctx_mode := mode p; ctx_tableFilter := tableFilter p;
     stateByUf := fold_left (fun m (r : jsval * string) =>
                               <[toUpperCase (js_String r.1) := r.2]> m)
                            (select_states (dest w)) ∅ |}.

Definition by_level (a b : Job) : Prop := (level a <= level b)%Z.

(** [w'] has the destination tables and the identity map of [w]. *)
Definition store_kept (w w' : World) : Prop :=
  dest w' = dest w /\ migration_map w' = migration_map w.

(** A computation that only reads the store. *)
Definition read_op {A} (c : M A) : Prop := forall w, store_kept w (c w).2.

(** A computation that never answers [false]. *)
Definition never_false (c : M bool) : Prop := forall w wu, c w <> (Ok false, wu).



End Notions.

(* ===================================================================== *)
(** ** A small environment to run the engine on concrete inputs *)
(* ===================================================================== *)

Module Demo.

Definition upper_ascii (c : ascii) : ascii :=
  let n := nat_of_ascii c in
  if ((97 <=? n)%nat && (n <=? 122)%nat)%bool then ascii_of_nat (n - 32) else c.

Fixpoint upper (s : string) : string :=
  match s with
  | EmptyString => EmptyString
  | String c s' => String (upper_ascii c) (upper s')
  end.

(** The destination keeps [(table, id)] of the rows written; a row whose
    [name] is null violates a not-null constraint. *)
Definition write (table id : string) (refs : list (option string)) (row : Row)
    (d : list (string * string)) : string + list (string * string) :=
  match field row "name" with
  | JNull => inl "null value in column name violates not-null constraint"
  | _ => inr (d ++ [(table, id)])%list
  end.

Definition lower_ascii (c : ascii) : ascii :=
  let n := nat_of_ascii c in
  if ((65 <=? n)%nat && (n <=? 90)%nat)%bool then ascii_of_nat (n + 32) else c.

Fixpoint lower (s : string) : string :=
  match s with
  | EmptyString => EmptyString
  | String c s' => String (lower_ascii c) (lower s')
  end.

Fixpoint digits (s : string) : bool :=
  match s with
  | EmptyString => true
  | String c s' =>
      ((48 <=? nat_of_ascii c)%nat && (nat_of_ascii c <=? 57)%nat && digits s')%bool
  end.

Definition env : Environment := {|
  Dest := list (string * string);
  dest_upsert := write;
  select_states := fun _ => [(JStr "sp", "state-sp")];
  select_gender_by_name := fun _ _ => None;
  select_default_gender := fun _ => None;
  select_default_semester := fun _ => None;
  toUpperCase := upper;
  toLowerCase := lower;
  is_finite_number := digits;
  uuidv7 := fun n => "uuid-" ++ NilZero.string_of_uint (Nat.to_uint n)
|}.

(** A fresh target: control tables created, nothing migrated. *)
Definition w0 : @World env := {|
  migration_runs := []; migration_checkpoints := ∅; migration_map := ∅;
  migration_errors := []; dest := (@nil (string * string) : @Dest env); journal := []; console := []; minted := 0
|}.

Definition sp : Row := [("id", JNum 1); ("name", JStr "Sao Paulo"); ("acronym", JStr "SP")].
Definition rj : Row := [("id", JNum 2); ("name", JNull); ("acronym", JStr "RJ")].
Definition ba : Row := [("id", JNum 3); ("name", JStr "Bahia"); ("acronym", JStr "BA")].
Definition acme : Row :=
  [("co_seq_empresa", JNum 10); ("user_id", JNum 99); ("ds_uf", JStr "sp")].
Definition ana : Row :=
  [("co_seq_usuario", JNum 7); ("id", JStr "uuid-abc"); ("name", JStr "Ana")].

(** The legacy database: three states, the second without a name, and one
    company whose user was never migrated; the other tables are missing. *)
Definition legacy (sql : string) : string + list Row :=
  if String.eqb sql "select id, estado as name, uf as acronym from tb_estados" then
    inr [sp; rj; ba]
  else if String.eqb sql "select * from tb_empresa" then inr [acme]
  else inl "table does not exist".

Definition process : Process := {|
  source := legacy; mode := Full; tableFilter := None; batchSize := 2
|}.

(** A registry with tiers 3, 2, 1, 1. *)
Definition registry : list (@Job env) :=
  [company_supervisor_job; company_job; state_job; user_job].

Definition ctx0 : Ctx := @main_ctx env process w0.



(** State 1 resolved, then committed under the id minted for it. *)
Definition w_resolved : @World env := (resolveId "state" (KNum 1) w0).2.
Definition w_committed : @World env := (mapPut "state" (KNum 1) "uuid-0" w_resolved).2.

(** State 1 committed under the id A. *)
Definition w_A : @World env := (mapPut "state" (KNum 1) "A" w0).2.

End Demo.


(* ===================================================================== *)
(** ** Field normalizers (index.ts l.47-71, l.91-116, l.164-191) *)
(* ===================================================================== *)

Definition is_digit (c : ascii) : bool :=
  let n := nat_of_ascii c in ((48 <=? n)%nat && (n <=? 57)%nat)%bool.

(** [s.replace(/\D/g, "")] *)
Fixpoint digits_of (s : string) : string :=
  match s with
  | EmptyString => EmptyString
  | String c s' => if is_digit c then String c (digits_of s') else digits_of s'
  end.

(** [s.replace(/\s+/g, "")] *)
Fixpoint remove_white (s : string) : string :=
  match s with
  | EmptyString => EmptyString
  | String c s' => if is_white c then remove_white s' else String c (remove_white s')
  end.

(** [s.slice(0, n)] *)
Fixpoint slice_to (n : nat) (s : string) : string :=
  match n, s with
  | S n', String c s' => String c (slice_to n' s')
  | _, _ => EmptyString
  end.

(** [s.slice(n)] *)
Fixpoint slice_from (n : nat) (s : string) : string :=
  match n, s with
  | S n', String _ s' => slice_from n' s'
  | _, _ => s
  end.

(** Every code unit of [s] is a digit. *)
Fixpoint all_digits (s : string) : bool :=
  match s with
  | EmptyString => true
  | String c s' => is_digit c && all_digits s'
  end.

(** No code unit of [s] is 0. *)
Fixpoint no_nul (s : string) : bool :=
  match s with
  | EmptyString => true
  | String c s' => negb (nat_of_ascii c =? 0)%nat && no_nul s'
  end.

(** [normalizeZip], l.47-52. *)
Definition normalizeZip (zip : jsval) : option string :=
  if negb (truthy zip) then None
  else
    let digits := digits_of (js_String zip) in
    if (String.length digits =? 8)%nat
    then Some (slice_to 5 digits ++ "-" ++ slice_from 5 digits)
    else Some (slice_to 9 digits).

(** [normalizeCpf], l.54-57. *)
Definition normalizeCpf (cpf : jsval) : option string :=
  if negb (truthy cpf) then None else Some (digits_of (js_String cpf)).

(** [normalizePhone], l.59-62. *)
Definition normalizePhone (phone : jsval) : option string :=
  if negb (truthy phone) then None else Some (trim (remove_white (js_String phone))).

(** [normalizePhoneOrDefault], l.64-71; its callers (l.460, l.501) leave
    [fallback] at its default. *)
Definition default_phone : string := "0000000000".

Definition normalizePhoneOrDefault (phone : jsval) (fallback : string) : string :=
  match normalizePhone phone with
  | Some normalized => if String.eqb normalized "" then fallback else normalized
  | None => fallback
  end.

(** [sanitizeOptionalString], l.184-191. *)
Definition sanitizeOptionalString (v : jsval) : option string :=
  match stripNullBytes v with
  | None => None
  | Some cleaned =>
      let trimmed := trim cleaned in
      if String.eqb trimmed "" then None else Some trimmed
  end.

(** A value handed to [toStringArray]: a scalar or an array of scalars. *)
Inductive jsany :=
| JScalar (v : jsval)
| JArray (items : list jsval).

Definition is_sep (c : ascii) : bool := (Ascii.eqb c ",") || (Ascii.eqb c ";").

(** [s.split(/,|;/)] *)
Fixpoint split_sep (s : string) : list string :=
  match s with
  | EmptyString => [EmptyString]
  | String c s' =>
      if is_sep c then EmptyString :: split_sep s'
      else
        match split_sep s' with
        | p :: ps => String c p :: ps
        | [] => [String c EmptyString]
        end
  end.

(** [toStringArray], l.91-106. *)
Definition toStringArray (value : jsany) : option (list string) :=
  match value with
  | JScalar JNull | JScalar JUndefined => None
  | JArray items =>
      let cleaned :=
        omap (fun v => sanitizeOptionalString (JStr (js_String v))) items in
      match cleaned with
      | [] => None
      | _ => Some cleaned
      end
  | JScalar v =>
      match sanitizeOptionalString (JStr (js_String v)) with
      | None => None
      | Some raw =>
          let parts :=
            List.filter (fun p => negb (String.eqb p "")) (map trim (split_sep raw)) in
          match parts with
          | [] => Some [raw]
          | _ => Some parts
          end
      end
  end.

(** The code units 225, 231 and 237 of the names of the language levels. *)
Definition a_acute : ascii := ascii_of_nat 225.
Definition c_cedilla : ascii := ascii_of_nat 231.
Definition i_acute : ascii := ascii_of_nat 237.

Definition basico_accented : string := String "b" (String a_acute "sico").
Definition intermediario_accented : string :=
  "intermedi" ++ String a_acute "rio".
Definition avancado_cedilla : string := "avan" ++ String c_cedilla "ado".

(** [list.includes(v)] *)
Definition includes (l : list string) (v : string) : bool := existsb (String.eqb v) l.

Section Normalizers.
Context `{Env : Environment}.

(** [mapLanguageLevel], l.108-116. *)
Definition mapLanguageLevel (value : jsval) : option string :=
  let v := toLowerCase (trim (js_String (nullish value (JStr "")))) in
  if String.eqb v "" then None
  else if includes ["nenhum"; basico_accented; "basico"] v then Some "beginner"
  else if includes [intermediario_accented; "intermediario"] v then Some "intermediate"
  else if includes [avancado_cedilla; "avancado"] v then Some "advanced"
  else if String.eqb v "native" then Some "native"
  else Some "beginner".

(** [mapUserRole], l.164-169. *)
Definition mapUserRole (role : jsval) : string :=
  let r := toLowerCase (trim (js_String (nullish role (JStr "")))) in
  if String.eqb r "undefined" || String.eqb r "" then "student"
  else if includes ["student"; "company"; "institution"; "admin"] r then r
  else "student".

(* ===================================================================== *)
(** ** More notions used by the properties *)
(* ===================================================================== *)

(** What [mapGet] answers on a given identity map. *)
Definition mapped (m : gmap (string * string) string) (entity : string) (v : jsval)
    : option string :=
  match v with
  | JNull | JUndefined => None
  | _ => m !! (entity, js_String v)
  end.

(** A candidate of [mapGetAny] that gives nothing on the map [m]. *)
Definition misses (m : gmap (string * string) string) (entity : string) (c : jsval)
    : Prop :=
  forall v, normalizeLegacyId c = Some v -> truthy_id (m !! (entity, v)) = false.

(** A computation that keeps [unique (entity, new_id)]. *)
Definition keeps_unique {A} (c : M A) : Prop :=
  forall w, one_legacy_per_id (migration_map w) ->
            one_legacy_per_id (migration_map (c w).2).

(** The levels a job list holds at level [k], in order. *)
Definition at_level (k : Z) (l : list Job) : list Job :=
  List.filter (fun j => (level j =? k)%Z) l.

(** An error row written for a run that exists and belongs to the same
    job, at one of the two stages the runner uses. *)
Definition error_well_formed (runs : list RunRow) (e : ErrorRow) : Prop :=
  (err_stage e = Load \/ err_stage e = Validate)
  /\ exists i r, err_run_id e = S i /\ runs !! i = Some r
                 /\ run_job_name r = err_job_name e.

End Normalizers.

Module Fixtures.

(** A demo process whose filter names no job. *)
Definition filtered_process : Process := {|
  source := Demo.legacy; mode := Full; tableFilter := Some "users"; batchSize := 2
|}.


(** State 1 migrated by the state upsert on a fresh target. *)
Definition w_sp_done : @World Demo.env :=
  (@dimUpsert Demo.env "state" Demo.sp Demo.ctx0 Demo.w0).2.

(** A state row without an id. *)
Definition no_id : Row := [("id", JNull); ("name", JStr "Goias"); ("acronym", JStr "GO")].

(** User 7 committed under a key with surrounding blanks. *)
Definition w_padded : @World Demo.env :=
  (@mapPutBoth Demo.env "user" (JStr " 7 ") JNull "N" Demo.w0).2.

(** Gender 1 migrated. *)
Definition w_gender : @World Demo.env :=
  (@mapPut Demo.env "gender" (JNum 1) "G" Demo.w0).2.

End Fixtures.
(* ===================================================================== *)
(** ** Strings: decimal numerals and trim *)
(* ===================================================================== *)

Open Scope list_scope.


Lemma trimStart_no_white s : no_white s = true -> trimStart s = s.
Proof.
  destruct s as [|c s]; simpl; [done|].
  intros [Hc _]%andb_true_iff. apply negb_true_iff in Hc. by rewrite Hc.
Qed.

Lemma trimEnd_no_white s : no_white s = true -> trimEnd s = s.
Proof.
  induction s as [|c s IH]; simpl; [done|].
  intros [Hc Hs]%andb_true_iff. apply negb_true_iff in Hc.
  rewrite (IH Hs), Hc. by destruct s.
Qed.

Lemma trim_no_white s : no_white s = true -> trim s = s.
Proof.
  intros H. unfold trim. rewrite (trimStart_no_white _ H). by apply trimEnd_no_white.
Qed.

Lemma no_white_uint d : no_white (NilEmpty.string_of_uint d) = true.
Proof. induction d; simpl; auto. Qed.

Lemma no_white_numeral n : no_white (js_String (JNum n)) = true.
Proof.
  unfold js_String, NilZero.string_of_int, NilZero.string_of_uint.
  destruct (Z.to_int n) as [d|d]; destruct d; simpl; auto using no_white_uint.
Qed.

Lemma numeral_not_empty n : js_String (JNum n) <> "".
Proof.
  unfold js_String, NilZero.string_of_int, NilZero.string_of_uint.
  destruct (Z.to_int n) as [d|d]; destruct d; simpl; discriminate.
Qed.

(** A number and its numeral normalize to the same legacy key. *)
Lemma normalizeLegacyId_numeral n :
  normalizeLegacyId (JNum n) = Some (js_String (JNum n))
  /\ normalizeLegacyId (JStr (js_String (JNum n))) = Some (js_String (JNum n)).
Proof.
  unfold normalizeLegacyId. change (js_String (JStr ?s)) with s.
  rewrite (trim_no_white _ (no_white_numeral n)).
  destruct (String.eqb_spec (js_String (JNum n)) "") as [E|_]; [|done].
  by destruct (numeral_not_empty n).
Qed.

Section IdentityMapFacts.
Context `{Env : Environment}.

Lemma claimed_elsewhere_spec (e l n : string) (m : gmap (string * string) string) :
  claimed_elsewhere e l n m = true <-> exists l', l' <> l /\ m !! (e, l') = Some n.
Proof.
  unfold claimed_elsewhere. rewrite existsb_exists. split.
  - intros [[[e' l'] n'] [Hin Hb]]. simpl in Hb.
    apply list_elem_of_In, elem_of_map_to_list in Hin.
    rewrite !andb_true_iff, negb_true_iff in Hb. destruct Hb as [[He Hl] Hn].
    apply bool_decide_eq_true in He, Hn. apply bool_decide_eq_false in Hl.
    subst. eauto.
  - intros (l' & Hne & Hl). exists ((e, l'), n). split.
    + by apply list_elem_of_In, elem_of_map_to_list.
    + simpl. repeat case_bool_decide; simpl; congruence.
Qed.

Lemma claimed_elsewhere_false (e l n : string) (m : gmap (string * string) string) :
  claimed_elsewhere e l n m = false <-> forall l', m !! (e, l') = Some n -> l' = l.
Proof.
  rewrite <- not_true_iff_false, claimed_elsewhere_spec. split.
  - intros H l' Hl. destruct (decide (l' = l)); [done|]. destruct H. eauto.
  - intros H (l' & Hne & Hl). eauto.
Qed.


Lemma mapPut_Ok e (l : jsval) n w w' :
  mapPut e l n w = (Ok tt, w') ->
  claimed_elsewhere e (js_String l) n (migration_map w) = false
  /\ migration_map w' = <[(e, js_String l) := n]> (migration_map w).
Proof.
  unfold mapPut. destruct (claimed_elsewhere _ _ _ _); [done|].
  by intros [= <-].
Qed.

Lemma mapPut_Throw e (l : jsval) n w w' msg :
  mapPut e l n w = (Throw msg, w') ->
  claimed_elsewhere e (js_String l) n (migration_map w) = true
  /\ msg = unique_violation /\ migration_map w' = migration_map w.
Proof.
  unfold mapPut. destruct (claimed_elsewhere _ _ _ _); [|done].
  by intros [= <- <-].
Qed.

Lemma mapPut_cases e (l : jsval) n w :
  (exists w', mapPut e l n w = (Ok tt, w'))
  \/ (exists w', mapPut e l n w = (Throw unique_violation, w')).
Proof. unfold mapPut. destruct (claimed_elsewhere _ _ _ _); eauto. Qed.

Lemma mapGet_map e (l : jsval) w : migration_map (mapGet e l w).2 = migration_map w.
Proof. by destruct l. Qed.

Lemma mapGet_key e (k : legacyKey) w :
  (mapGet e k w).1 = Ok (migration_map w !! (e, js_String k)).
Proof. by destruct k. Qed.

Lemma mapGet_str e s w : (mapGet e (JStr s) w).1 = Ok (migration_map w !! (e, s)).
Proof. done. Qed.

Lemma resolveId_map e (l : jsval) w : migration_map (resolveId e l w).2 = migration_map w.
Proof.
  unfold resolveId, bind. pose proof (mapGet_map e l w) as H.
  destruct (mapGet e l w) as [[[id|]|msg] w1]; simpl in *; done.
Qed.

Lemma resolveId_mapped e (k : legacyKey) n w :
  migration_map w !! (e, js_String k) = Some n -> (resolveId e k w).1 = Ok n.
Proof.
  intros H. unfold resolveId, bind. pose proof (mapGet_key e k w) as Hg.
  destruct (mapGet e k w) as [r w1]. simpl in Hg. subst r. by rewrite H.
Qed.


Lemma resolve_commit_keeps e k w e0 l0 n0 :
  migration_map w !! (e0, l0) = Some n0 ->
  migration_map (resolve_commit e k w).2 !! (e0, l0) = Some n0.
Proof.
  intros H0. unfold resolve_commit, bind.
  pose proof (resolveId_map e k w) as Hm.
  destruct (resolveId e k w) as [[id|msg] w1] eqn:Hr; simpl in Hm; [|simpl; by rewrite Hm].
  destruct (mapPut_cases e k id w1) as [[w2 Hp]|[w2 Hp]]; rewrite Hp; simpl.
  - apply mapPut_Ok in Hp as [_ ->]. rewrite Hm.
    destruct (decide ((e, js_String k) = (e0, l0))) as [Heq|Hne].
    + rewrite Heq, lookup_insert_eq. f_equal.
      injection Heq as He Hl. subst e0 l0.
      pose proof (resolveId_mapped e k n0 w H0) as Hx. rewrite Hr in Hx.
      simpl in Hx. congruence.
    + by rewrite lookup_insert_ne.
  - apply mapPut_Throw in Hp as (_ & _ & ->). by rewrite Hm.
Qed.

Lemma resolve_commits_keep ks w e0 l0 n0 :
  migration_map w !! (e0, l0) = Some n0 ->
  migration_map (resolve_commits ks w) !! (e0, l0) = Some n0.
Proof.
  revert w. induction ks as [|[e k] ks IH]; intros w H; simpl; [done|].
  by apply IH, resolve_commit_keeps.
Qed.

End IdentityMapFacts.

Section IdentityMapProperties.
Context `{Env : Environment}.

Lemma mapPut_one_legacy_per_id (e : string) (l : jsval) (n : string) (w : World) :
  one_legacy_per_id (migration_map w) ->
  one_legacy_per_id (migration_map (mapPut e l n w).2).
Proof.
  intros Hinv.
  destruct (mapPut_cases e l n w) as [[w' Hp]|[w' Hp]]; rewrite Hp; simpl.
  - apply mapPut_Ok in Hp as [Hfree ->].
    rewrite claimed_elsewhere_false in Hfree.
    intros e0 l1 l2 n0 H1 H2.
    destruct (decide ((e, js_String l) = (e0, l1))) as [E1|N1];
      destruct (decide ((e, js_String l) = (e0, l2))) as [E2|N2].
    + congruence.
    + rewrite E1, lookup_insert_eq in H1. rewrite lookup_insert_ne in H2 by done.
      injection E1 as <- <-. injection H1 as <-. symmetry. by apply Hfree.
    + rewrite E2, lookup_insert_eq in H2. rewrite lookup_insert_ne in H1 by done.
      injection E2 as <- <-. injection H2 as <-. by apply Hfree.
    + rewrite lookup_insert_ne in H1, H2 by done. eauto.
  - by apply mapPut_Throw in Hp as (_ & _ & ->).
Qed.

(** C1 -- idempotent resolution.  Once [resolveId(E, L)] has returned [N]
    and [mapPut(E, L, N)] has committed it, [resolveId(E, L)] returns [N]
    after any number of further resolve-then-commit steps (for [(E, L)] or
    for any other key), and in any process that starts from the persisted
    map. *)
Theorem resolve_commit_idempotent (E : string) (L : legacyKey) (N : string)
    (w wr w1 : World) :
  resolveId E L w = (Ok N, wr) ->
  mapPut E L N wr = (Ok tt, w1) ->
  forall (later : list (string * legacyKey)) (w' : World),
    migration_map w' = migration_map (resolve_commits later w1) ->
    (resolveId E L w').1 = Ok N.
Proof.
  intros _ Hput later w' Hmap.
  apply resolveId_mapped. rewrite Hmap.
  apply resolve_commits_keep.
  apply mapPut_Ok in Hput as [_ ->]. apply lookup_insert_eq.
Qed.


(** Two distinct normalized keys: the second [mapPut] of [mapPutBoth] asks
    for a [new_id] that the first one has just claimed. *)
Lemma mapPutBoth_distinct_keys_throw (e : string) (a b : jsval) (a' b' n : string)
    (w : World) :
  normalizeLegacyId a = Some a' ->
  normalizeLegacyId b = Some b' ->
  a' <> b' ->
  (mapPutBoth e a b n w).1 = Throw unique_violation
  /\ migration_map (mapPutBoth e a b n w).2 !! (e, b') = migration_map w !! (e, b').
Proof.
  intros Ha Hb Hne. unfold mapPutBoth, bind. rewrite Ha, Hb.
  destruct (mapPut_cases e (JStr a') n w) as [[w1 Hp]|[w1 Hp]]; rewrite Hp.
  - rewrite bool_decide_eq_true_2 by congruence.
    apply mapPut_Ok in Hp as [_ Hm].
    assert (Hc : claimed_elsewhere e b' n (migration_map w1) = true).
    { apply claimed_elsewhere_spec. exists a'. split; [done|].
      rewrite Hm. apply lookup_insert_eq. }
    unfold mapPut. simpl. rewrite Hc. simpl. split; [done|].
    rewrite Hm. simpl. apply lookup_insert_ne. congruence.
  - simpl. split; [done|]. by apply mapPut_Throw in Hp as (_ & _ & ->).
Qed.

Lemma mapGetAny_map (e : string) (cs : list jsval) (w : World) :
  migration_map (mapGetAny e cs w).2 = migration_map w.
Proof.
  revert w. induction cs as [|c cs IH]; intros w; simpl; [done|].
  destruct (normalizeLegacyId c) as [v|]; [|apply IH].
  unfold bind. simpl. destruct (truthy_id _); simpl; [done|]. by rewrite IH.
Qed.

(** [mapGetAny] goes through the candidates in order, passes over those
    that normalize to null and those without a (non-empty) mapping, and
    returns the first mapping found; with no such candidate it returns
    null. *)
Lemma mapGetAny_first_hit (e : string) (pre post : list jsval) (c : jsval)
    (v id : string) (w : World) :
  Forall (fun c' => forall v', normalizeLegacyId c' = Some v' ->
                      truthy_id (migration_map w !! (e, v')) = false) pre ->
  normalizeLegacyId c = Some v ->
  migration_map w !! (e, v) = Some id ->
  id <> "" ->
  (mapGetAny e (pre ++ c :: post) w).1 = Ok (Some id).
Proof.
  intros Hpre Hc Hv Hid. revert w Hpre Hv.
  induction pre as [|c' pre IH]; intros w Hpre Hv; simpl.
  - rewrite Hc. unfold bind. simpl. rewrite Hv. simpl.
    destruct (String.eqb_spec id ""); [done|]. done.
  - inversion Hpre as [|? ? Hc' Hrest]; subst.
    destruct (normalizeLegacyId c') as [v'|] eqn:Hn; [|by apply IH].
    unfold bind. simpl. rewrite (Hc' v' eq_refl). by apply IH.
Qed.

Lemma mapGetAny_no_hit (e : string) (cs : list jsval) (w : World) :
  Forall (fun c' => forall v', normalizeLegacyId c' = Some v' ->
                      truthy_id (migration_map w !! (e, v')) = false) cs ->
  (mapGetAny e cs w).1 = Ok None.
Proof.
  revert w. induction cs as [|c cs IH]; intros w Hcs; simpl; [done|].
  inversion Hcs as [|? ? Hc Hrest]; subst.
  destruct (normalizeLegacyId c) as [v|] eqn:Hn; [|by apply IH].
  unfold bind. simpl. rewrite (Hc v eq_refl). by apply IH.
Qed.

(** C9 -- a numeric legacy id and its decimal string are the same key:
    a put under one form is read back under the other, and [mapPut],
    [mapGet], [resolveId], [mapPutBoth] and [mapGetAny] do not distinguish
    the two forms. *)
Theorem numeric_and_string_key_agree (E : string) (n : Z) (N : string) (w : World) :
  let s := js_String (JNum n) in
  (forall w1, mapPut E (JNum n) N w = (Ok tt, w1) ->
              (mapGet E (JStr s) w1).1 = Ok (Some N))
  /\ (forall w1, mapPut E (JStr s) N w = (Ok tt, w1) ->
                 (mapGet E (JNum n) w1).1 = Ok (Some N))
  /\ mapPut E (JNum n) N w = mapPut E (JStr s) N w
  /\ mapGet E (JNum n) w = mapGet E (JStr s) w
  /\ resolveId E (JNum n) w = resolveId E (JStr s) w
  /\ (forall other, mapPutBoth E (JNum n) other N w = mapPutBoth E (JStr s) other N w
                    /\ mapPutBoth E other (JNum n) N w = mapPutBoth E other (JStr s) N w)
  /\ (forall pre post,
        mapGetAny E (pre ++ JNum n :: post) w = mapGetAny E (pre ++ JStr s :: post) w).
Proof.
  intros s. subst s. destruct (normalizeLegacyId_numeral n) as [Hn Hs].
  split_and!.
  - intros w1 [_ Hm]%mapPut_Ok. simpl. rewrite Hm. f_equal. apply lookup_insert_eq.
  - intros w1 [_ Hm]%mapPut_Ok. simpl. rewrite Hm. f_equal. apply lookup_insert_eq.
  - reflexivity.
  - reflexivity.
  - reflexivity.
  - intros other. unfold mapPutBoth. by rewrite Hn, Hs.
  - intros pre post. revert w.
    induction pre as [|c pre IH]; intros w; cbn [mapGetAny app].
    + by rewrite Hn, Hs.
    + destruct (normalizeLegacyId c) as [v|]; [|apply IH].
      unfold bind. destruct (mapGet E (JStr v) w) as [[id|msg] w1]; [|done].
      destruct (truthy_id id); [done|apply IH].
Qed.

(** C10 -- [mapGet] on a null or undefined legacy id answers null at once:
    the world, the journal of statements included, is left as it was, so no
    query reaches [migration_map]. *)
Theorem mapGet_nullish (E : string) (w : World) :
  mapGet E JNull w = (Ok None, w) /\ mapGet E JUndefined w = (Ok None, w).
Proof. split; reflexivity. Qed.

(** Any other legacy id costs one [select] on [migration_map]. *)
Lemma mapGet_key_journal (E : string) (k : legacyKey) (w : World) :
  journal (mapGet E k w).2 = journal w ++ [SSelectMap E (js_String k)].
Proof. by destruct k. Qed.

End IdentityMapProperties.

(* ===================================================================== *)
(** ** The upserts work on the identity map and the destination only *)
(* ===================================================================== *)

Section DataOps.
Context `{Env : Environment}.

Lemma control_kept_refl (w : World) : control_kept w w.
Proof. split_and!; try done. exists []. by rewrite app_nil_r. Qed.

Lemma control_kept_trans (w1 w2 w3 : World) :
  control_kept w1 w2 -> control_kept w2 w3 -> control_kept w1 w3.
Proof.
  intros (R1 & E1 & C1 & js1 & J1 & F1) (R2 & E2 & C2 & js2 & J2 & F2).
  split_and!; try congruence.
  exists (js1 ++ js2). rewrite J2, J1, <- app_assoc, forallb_app, F1, F2. done.
Qed.

Lemma data_op_ret {A} (a : A) : data_op (ret a).
Proof. intros w. apply control_kept_refl. Qed.

Lemma data_op_bind {A B} (c : M A) (k : A -> M B) :
  data_op c -> (forall a, data_op (k a)) -> data_op (bind c k).
Proof.
  intros Hc Hk w. unfold bind. specialize (Hc w).
  destruct (c w) as [[a|e] w1]; simpl in *; [|done].
  eapply control_kept_trans; [exact Hc|apply Hk].
Qed.

Lemma data_op_mapGet (e : string) (l : jsval) : data_op (mapGet e l).
Proof.
  intros w. destruct l; simpl; try apply control_kept_refl;
    (split_and!; try done; by eexists [_]).
Qed.

Lemma data_op_mapPut (e : string) (l : jsval) (n : string) : data_op (mapPut e l n).
Proof.
  intros w. unfold mapPut. destruct (claimed_elsewhere _ _ _ _); simpl;
    (split_and!; try done; by eexists [_]).
Qed.

Lemma data_op_newId : data_op newId.
Proof. intros w. split_and!; try done. exists []. simpl. by rewrite app_nil_r. Qed.

Lemma data_op_resolveId (e : string) (l : jsval) : data_op (resolveId e l).
Proof.
  apply data_op_bind; [apply data_op_mapGet|].
  intros [id|]; [apply data_op_ret|apply data_op_newId].
Qed.

Lemma data_op_mapPutBoth (e : string) (a b : jsval) (n : string) :
  data_op (mapPutBoth e a b n).
Proof.
  unfold mapPutBoth. apply data_op_bind.
  - destruct (normalizeLegacyId a); [apply data_op_mapPut|apply data_op_ret].
  - intros _. destruct (normalizeLegacyId b); [|apply data_op_ret].
    case_bool_decide; [apply data_op_mapPut|apply data_op_ret].
Qed.

Lemma data_op_mapGetAny (e : string) (cs : list jsval) : data_op (mapGetAny e cs).
Proof.
  induction cs as [|c cs IH]; cbn [mapGetAny]; [apply data_op_ret|].
  destruct (normalizeLegacyId c) as [v|]; [|done].
  apply data_op_bind; [apply (data_op_mapGet e (JStr v))|].
  intros id. destruct (truthy_id id); [apply data_op_ret|done].
Qed.

Lemma data_op_targetUpsert (table id : string) (refs : list (option string)) (row : Row) :
  data_op (targetUpsert table id refs row).
Proof.
  intros w. unfold targetUpsert. destruct (dest_upsert _ _ _ _ _); simpl;
    (split_and!; try done; by eexists [_]).
Qed.

Lemma data_op_targetSelect {A} (table : string) (q : Dest -> A) :
  data_op (targetSelect table q).
Proof. intros w. split_and!; try done. by eexists [_]. Qed.

Lemma data_op_getGenderIdFromLegacy (value : jsval) :
  data_op (getGenderIdFromLegacy value).
Proof.
  unfold getGenderIdFromLegacy.
  destruct value; try apply data_op_ret;
    (apply data_op_bind;
     [destruct (numeric_like _); [apply data_op_mapGet|apply data_op_ret]|];
     intros mapped; destruct (truthy_id mapped); [apply data_op_ret|];
     destruct (String.eqb _ _); [apply data_op_ret|apply data_op_targetSelect]).
Qed.

Ltac data_op_step :=
  first
    [ apply data_op_ret | apply data_op_mapGet | apply data_op_mapPut
    | apply data_op_resolveId | apply data_op_mapPutBoth | apply data_op_mapGetAny
    | apply data_op_targetUpsert | apply data_op_targetSelect
    | apply data_op_getGenderIdFromLegacy
    | apply data_op_bind; [|intros ?]
    | match goal with
      | |- data_op (if ?b then _ else _) => destruct b
      end
    | progress cbv zeta ].

Ltac data_job_tac :=
  let row := fresh "row" in
  let ctx := fresh "ctx" in
  intros row ctx; cbn [upsert]; unfold dimUpsert, getDefaultGenderId,
    getDefaultSemesterId; repeat data_op_step.

Lemma jobs_data : Forall data_job jobs.
Proof. unfold jobs. repeat (constructor; [data_job_tac|]). constructor. Qed.

Lemma mapGet_dest (e : string) (l : jsval) (w : World) : dest (mapGet e l w).2 = dest w.
Proof. by destruct l. Qed.

Lemma store_kept_refl (w : World) : store_kept w w.
Proof. done. Qed.

Lemma store_kept_trans (w1 w2 w3 : World) :
  store_kept w1 w2 -> store_kept w2 w3 -> store_kept w1 w3.
Proof. intros [D1 M1] [D2 M2]. split; congruence. Qed.

Lemma read_op_ret {A} (a : A) : read_op (ret a).
Proof. intros w. apply store_kept_refl. Qed.

Lemma read_op_bind {A B} (c : M A) (k : A -> M B) :
  read_op c -> (forall a, read_op (k a)) -> read_op (bind c k).
Proof.
  intros Hc Hk w. unfold bind. specialize (Hc w).
  destruct (c w) as [[a|e] w1]; simpl in *; [|done].
  eapply store_kept_trans; [exact Hc|apply Hk].
Qed.

Lemma read_op_mapGet (e : string) (l : jsval) : read_op (mapGet e l).
Proof. intros w. split; [apply mapGet_dest|apply mapGet_map]. Qed.

Lemma read_op_newId : read_op newId.
Proof. intros w. done. Qed.

Lemma read_op_resolveId (e : string) (l : jsval) : read_op (resolveId e l).
Proof.
  apply read_op_bind; [apply read_op_mapGet|].
  intros [id|]; [apply read_op_ret|apply read_op_newId].
Qed.

Lemma read_op_mapGetAny (e : string) (cs : list jsval) : read_op (mapGetAny e cs).
Proof.
  induction cs as [|c cs IH]; cbn [mapGetAny]; [apply read_op_ret|].
  destruct (normalizeLegacyId c) as [v|]; [|done].
  apply read_op_bind; [apply (read_op_mapGet e (JStr v))|].
  intros id. destruct (truthy_id id); [apply read_op_ret|done].
Qed.



Lemma resolveId_dest (e : string) (l : jsval) (w : World) :
  dest (resolveId e l w).2 = dest w.
Proof. apply read_op_resolveId. Qed.

Lemma never_false_ret_true : never_false (ret true).
Proof. intros w wu. unfold ret. congruence. Qed.

Lemma never_false_bind {A} (c : M A) (k : A -> M bool) :
  (forall a, never_false (k a)) -> never_false (bind c k).
Proof.
  intros Hk w wu. unfold bind. destruct (c w) as [[a|e] w1]; [apply Hk|congruence].
Qed.









Lemma jobs_keys : NoDup (map key jobs).
Proof. apply (bool_decide_unpack _). vm_compute. exact I. Qed.

End DataOps.

(* ===================================================================== *)
(** ** The job runner *)
(* ===================================================================== *)

Section RunnerFacts.
Context `{Env : Environment}.

Lemma ledger_app (js1 js2 : list stmt) : ledger (js1 ++ js2) = ledger js1 ++ ledger js2.
Proof. apply List.filter_app. Qed.

Lemma data_ledger_nil (js : list stmt) : forallb data_stmt js = true -> ledger js = [].
Proof.
  unfold ledger. induction js as [|s js IH]; simpl; [done|].
  intros [Hs Hjs]%andb_true_iff. destruct s; simpl in *; try done; by apply IH.
Qed.

Lemma ledger_kept_refl (w : World) : ledger_kept w w.
Proof. split_and!; try done. exists []. by rewrite app_nil_r. Qed.

Lemma ledger_kept_trans (w1 w2 w3 : World) :
  ledger_kept w1 w2 -> ledger_kept w2 w3 -> ledger_kept w1 w3.
Proof.
  intros (R1 & C1 & js1 & J1 & L1) (R2 & C2 & js2 & J2 & L2).
  split_and!; try congruence.
  exists (js1 ++ js2). rewrite J2, J1, <- app_assoc, ledger_app, L1, L2. done.
Qed.

Lemma control_ledger_kept (w w' : World) : control_kept w w' -> ledger_kept w w'.
Proof.
  intros (R & _ & C & js & J & F). split_and!; try done.
  exists js. split; [done|]. by apply data_ledger_nil.
Qed.

(** One turn of the loop: the row is counted as read, counted as inserted
    only when the upsert answered [true], and leaves one entry in
    [migration_errors] when the upsert answered [false] (stage validate) or
    threw (stage load, with the message of the exception). *)
Lemma processRow_spec (p : Process) (job : Job) (ctx : Ctx) (runId : nat) (row : Row)
    (c : nat * nat) (w : World) :
  data_job job ->
  let u := upsert job row ctx w in
  exists w',
    processRow p job ctx runId row c w
    = (Ok (S c.1, match u.1 with Ok true => S c.2 | _ => c.2 end), w')
    /\ migration_errors w'
       = migration_errors w ++
         match u.1 with
         | Ok true => []
         | Ok false => [error_entry runId job row Validate skipped_message]
         | Throw msg => [error_entry runId job row Load msg]
         end
    /\ dest w' = dest u.2
    /\ migration_map w' = migration_map u.2
    /\ ledger_kept w w'.
Proof.
  intros Hj u. subst u.
  destruct (Hj row ctx w) as (R & E & C & js & J & F).
  apply data_ledger_nil in F.
  unfold processRow, bind, try_catch.
  destruct (upsert job row ctx w) as [[[|]|msg] wu]; simpl in *;
    destruct (at_batch _ _); simpl; eexists;
    (split_and!; [reflexivity|simpl; rewrite E, ?app_nil_r; reflexivity
                 |reflexivity|reflexivity|]);
    (split_and!; simpl; [congruence|congruence|]);
    rewrite J.
  all: first [ by exists js
             | eexists (js ++ [_]); rewrite ledger_app, F, <- app_assoc; done ].
Qed.

Lemma forRows_app (p : Process) (job : Job) (ctx : Ctx) (runId : nat)
    (l1 l2 : list Row) (c : nat * nat) (w : World) :
  forRows p job ctx runId (l1 ++ l2) c w
  = bind (forRows p job ctx runId l1 c) (fun c' => forRows p job ctx runId l2 c') w.
Proof.
  revert c w. induction l1 as [|row l1 IH]; intros c w; [done|].
  cbn [forRows app]. unfold bind.
  destruct (processRow p job ctx runId row c w) as [[c'|e] w']; [|done].
  exact (IH c' w').
Qed.

(** The loop reads every row, whatever the upserts do. *)
Lemma forRows_total (p : Process) (job : Job) (ctx : Ctx) (runId : nat)
    (rows : list Row) (c : nat * nat) (w : World) :
  data_job job ->
  exists c' w',
    forRows p job ctx runId rows c w = (Ok c', w')
    /\ c'.1 = (c.1 + length rows)%nat
    /\ ledger_kept w w'.
Proof.
  intros Hj. revert c w. induction rows as [|row rows IH]; intros c w.
  - exists c, w. split_and!; [done|simpl; lia|apply ledger_kept_refl].
  - destruct (processRow_spec p job ctx runId row c w Hj) as (w1 & Hp & _ & _ & _ & K1).
    cbn [forRows]. unfold bind. rewrite Hp.
    destruct (IH (S c.1, match (upsert job row ctx w).1 with
                         | Ok true => S c.2 | _ => c.2 end) w1)
      as (c' & w' & Hf & Hc & K2).
    exists c', w'. split_and!; [done|simpl in *; lia|].
    by eapply ledger_kept_trans.
Qed.

Lemma runJob_filtered (p : Process) (job : Job) (ctx : Ctx) (w : World) :
  filtered_out ctx job = true -> runJob p job ctx w = (Ok tt, w).
Proof. intros H. unfold runJob. by rewrite H. Qed.

(** A job that passes the filter opens one run and closes it once. *)
Lemma runJob_spec (p : Process) (job : Job) (ctx : Ctx) (w : World) :
  data_job job ->
  filtered_out ctx job = false ->
  exists w' js,
    runJob p job ctx w = (Ok tt, w')
    /\ migration_runs w' = migration_runs w ++ [closed_run p ctx job]
    /\ migration_checkpoints w' = migration_checkpoints w
    /\ journal w' = journal w ++ js
    /\ ledger js = [SInsertRun (S (length (migration_runs w))) (key job);
                    SUpdateRun (S (length (migration_runs w))) (run_outcome p ctx job).1].
Proof.
  intros Hj Hf. unfold runJob. rewrite Hf.
  unfold bind at 1. cbn [startRun]. unfold try_catch, bind at 1, sourceQuery.
  unfold closed_run, run_outcome.
  destruct (source p (extractSql job (ctx_mode ctx))) as [msg|rows].
  - cbn. eexists _, [_; _]. split_and!; try reflexivity.
    + rewrite alter_app_r_alt by done. by rewrite Nat.sub_diag.
    + simpl. by rewrite <- app_assoc.
    + reflexivity.
  - set (w1 := log _ _).
    destruct (forRows_total p job ctx (S (length (migration_runs w))) rows (0, 0)%nat w1 Hj)
      as (c' & w2 & Hrows & _ & (R & C & js & J & L)).
    unfold bind. rewrite Hrows. cbn.
    eexists _, (_ :: js ++ [_]). split_and!; try reflexivity.
    + simpl. rewrite R. subst w1. simpl. rewrite alter_app_r_alt by done.
      by rewrite Nat.sub_diag.
    + simpl. by rewrite C.
    + simpl. rewrite J. subst w1. simpl. by rewrite <- !app_assoc.
    + unfold ledger in *. simpl. rewrite List.filter_app, L. done.
Qed.

End RunnerFacts.

(* ===================================================================== *)
(** ** Sorting the registry and running it *)
(* ===================================================================== *)

Section MainFacts.
Context `{Env : Environment}.

Lemma insert_by_level_perm (j : Job) (l : list Job) :
  Permutation (insert_by_level j l) (j :: l).
Proof.
  induction l as [|x r IH]; simpl; [done|].
  destruct (level j <=? level x)%Z; [done|].
  rewrite IH. apply perm_swap.
Qed.

Lemma sort_by_level_perm (l : list Job) : Permutation (sort_by_level l) l.
Proof.
  induction l as [|j r IH]; simpl; [done|].
  rewrite insert_by_level_perm. by constructor.
Qed.

Lemma sort_by_level_In (l : list Job) (j : Job) : In j (sort_by_level l) <-> In j l.
Proof.
  split; apply Permutation_in; [|symmetry]; apply sort_by_level_perm.
Qed.







(** Running the jobs of a list one after the other. *)
Lemma forJobs_spec (p : Process) (js : list Job) (ctx : Ctx) (w : World) :
  Forall data_job js ->
  exists w' jl,
    forJobs p js ctx w = (Ok tt, w')
    /\ migration_runs w' = migration_runs w ++ map (closed_run p ctx) (ran ctx js)
    /\ migration_checkpoints w' = migration_checkpoints w
    /\ journal w' = journal w ++ jl
    /\ ledger jl = run_trace p ctx (length (migration_runs w)) (ran ctx js).
Proof.
  intros Hjs. revert w. induction Hjs as [|job rest Hj Hrest IH]; intros w.
  - exists w, []. split_and!; try done; simpl; by rewrite app_nil_r.
  - cbn [forJobs]. unfold bind, ran. cbn [List.filter].
    destruct (filtered_out ctx job) eqn:Hf; cbn [negb].
    + rewrite (runJob_filtered _ _ _ _ Hf). apply IH.
    + destruct (runJob_spec p job ctx w Hj Hf) as (w1 & j1 & Hrun & R1 & C1 & J1 & L1).
      rewrite Hrun.
      destruct (IH w1) as (w' & jl & Hfor & R & C & J & L).
      exists w', (j1 ++ jl). split_and!.
      * done.
      * rewrite R, R1, <- app_assoc. done.
      * congruence.
      * rewrite J, J1, <- app_assoc. done.
      * rewrite ledger_app, L1, L, R1, length_app. cbn [length].
        rewrite Nat.add_1_r. done.
Qed.

Lemma main_on_unfold (p : Process) (registry : list Job) (w : World) :
  main_on p registry w
  = forJobs p (sort_by_level registry) (main_ctx p w) (log SSelectStates (log SDdl w)).
Proof. reflexivity. Qed.

Lemma main_on_spec (p : Process) (registry : list Job) (w : World) :
  Forall data_job registry ->
  let started := ran (main_ctx p w) (sort_by_level registry) in
  exists w' jl,
    main_on p registry w = (Ok tt, w')
    /\ migration_runs w' = migration_runs w ++ map (closed_run p (main_ctx p w)) started
    /\ migration_checkpoints w' = migration_checkpoints w
    /\ journal w' = journal w ++ jl
    /\ ledger jl = run_trace p (main_ctx p w) (length (migration_runs w)) started.
Proof.
  intros Hjs started.
  assert (Hs : Forall data_job (sort_by_level registry)).
  { apply List.Forall_forall. intros j Hj.
    apply (proj1 (sort_by_level_In _ _)) in Hj.
    rewrite List.Forall_forall in Hjs. auto. }
  destruct (forJobs_spec p (sort_by_level registry) (main_ctx p w)
              (log SSelectStates (log SDdl w)) Hs)
    as (w' & jl & Hfor & R & C & J & L).
  exists w', (SDdl :: SSelectStates :: jl). split_and!.
  - by rewrite main_on_unfold.
  - done.
  - done.
  - rewrite J. simpl. by rewrite <- !app_assoc.
  - done.
Qed.






End MainFacts.

(* ===================================================================== *)
(** ** The orchestrator *)
(* ===================================================================== *)

Section OrchestratorProperties.
Context `{Env : Environment}.




(** C7 (as amended) -- [migration_checkpoints] is created with the other
    control tables, but the orchestrator does not write to it: after [main]
    it holds what it held before. *)
Theorem checkpoints_never_written (p : Process) (registry : list Job) (w : World) :
  Forall data_job registry ->
  migration_checkpoints (main_on p registry w).2 = migration_checkpoints w.
Proof.
  intros Hjs. destruct (main_on_spec p registry w Hjs) as (w' & jl & Hmain & _ & C & _).
  by rewrite Hmain.
Qed.


End OrchestratorProperties.

(* ===================================================================== *)
(** ** The engine on concrete inputs *)
(* ===================================================================== *)

#[local] Existing Instance Demo.env.

Lemma jobs_data_In (j : Job) : In j jobs -> data_job j.
Proof.
  pose proof (@jobs_data Demo.env) as H. rewrite List.Forall_forall in H. apply H.
Qed.

Lemma registry_data : Forall data_job Demo.registry.
Proof.
  apply List.Forall_forall. intros j Hj. apply jobs_data_In.
  unfold jobs. simpl in Hj. simpl. intuition.
Qed.


(** State 1 of the demo database: resolved, committed, resolved again after
    two more resolve-then-commit steps. *)
Lemma resolve_commit_idempotent_witness :
  resolveId "state" (KNum 1) Demo.w0 = (Ok "uuid-0", Demo.w_resolved)
  /\ mapPut "state" (KNum 1) "uuid-0" Demo.w_resolved = (Ok tt, Demo.w_committed)
  /\ (resolveId "state" (KNum 1)
        (resolve_commits [("state", KNum 2); ("state", KNum 1)] Demo.w_committed)).1
     = Ok "uuid-0".
Proof.
  assert (H1 : resolveId "state" (KNum 1) Demo.w0 = (Ok "uuid-0", Demo.w_resolved))
    by reflexivity.
  assert (H2 : mapPut "state" (KNum 1) "uuid-0" Demo.w_resolved
               = (Ok tt, Demo.w_committed)) by reflexivity.
  split_and!; [exact H1|exact H2|].
  exact (resolve_commit_idempotent "state" (KNum 1) "uuid-0" Demo.w0 Demo.w_resolved
           Demo.w_committed H1 H2 [("state", KNum 2); ("state", KNum 1)] _ eq_refl).
Defined.

(** C2 -- dual-key union, on the input of the specification: the second
    [mapPut] of [mapPutBoth(E, "7", "uuid-abc", N)] is rejected by
    [unique (entity, new_id)], so [mapPutBoth] throws and only the first key
    is mapped. *)
Theorem mapPutBoth_second_key_rejected :
  (mapPutBoth "user" (JStr "7") (JStr "uuid-abc") "N" Demo.w0).1 = Throw unique_violation
  /\ (mapGet "user" (JStr "7")
        (mapPutBoth "user" (JStr "7") (JStr "uuid-abc") "N" Demo.w0).2).1 = Ok (Some "N")
  /\ (mapGet "user" (JStr "uuid-abc")
        (mapPutBoth "user" (JStr "7") (JStr "uuid-abc") "N" Demo.w0).2).1 = Ok None
  /\ (mapGetAny "user" [JStr "7"; JStr "uuid-abc"]
        (mapPutBoth "user" (JStr "7") (JStr "uuid-abc") "N" Demo.w0).2).1 = Ok (Some "N")
  /\ (mapGetAny "user" [JNull; JStr "uuid-abc"]
        (mapPutBoth "user" (JStr "7") (JStr "uuid-abc") "N" Demo.w0).2).1 = Ok None.
Proof. split_and!; vm_compute; reflexivity. Qed.

(** The user upsert (l.425) on a row that has both keys: the row is written
    to the destination, mapped under its numeric key, and the upsert
    throws. *)
Lemma user_row_with_both_keys_throws :
  (upsert user_job Demo.ana Demo.ctx0 Demo.w0).1 = Throw unique_violation
  /\ dest (upsert user_job Demo.ana Demo.ctx0 Demo.w0).2 = [("user", "uuid-0")]
  /\ map_to_list (migration_map (upsert user_job Demo.ana Demo.ctx0 Demo.w0).2)
     = [("user", "7", "uuid-0")].
Proof. split_and!; vm_compute; reflexivity. Qed.






(** C7, as stated, fails: the state job runs to completion and no
    checkpoint is left for it. *)
Lemma no_checkpoint_written :
  ~ (forall (p : Process) (registry : list Job) (w : World) (j : Job),
        Forall data_job registry -> In j registry ->
        filtered_out (main_ctx p w) j = false ->
        is_Some (migration_checkpoints (main_on p registry w).2 !! key j)).
Proof.
  intros H.
  destruct (H Demo.process Demo.registry Demo.w0 state_job registry_data) as [x Hx].
  - simpl; auto.
  - reflexivity.
  - vm_compute in Hx. discriminate Hx.
Qed.

(** [main] on the demo database leaves [migration_checkpoints] empty. *)
Lemma checkpoints_never_written_witness :
  Forall data_job jobs
  /\ migration_checkpoints (main Demo.process Demo.w0).2 = ∅.
Proof.
  split; [exact jobs_data|].
  exact (checkpoints_never_written Demo.process jobs Demo.w0 jobs_data).
Defined.


(** State 1 put under the number 1 and read under the string "1". *)
Lemma numeric_and_string_key_agree_witness :
  mapPut "state" (JNum 1) "A" Demo.w0 = (Ok tt, Demo.w_A)
  /\ (mapGet "state" (JStr "1") Demo.w_A).1 = Ok (Some "A").
Proof.
  assert (H1 : mapPut "state" (JNum 1) "A" Demo.w0 = (Ok tt, Demo.w_A)) by reflexivity.
  split; [exact H1|].
  destruct (numeric_and_string_key_agree "state" 1 "A" Demo.w0) as (Hget & _).
  exact (Hget Demo.w_A H1).
Defined.

(* ===================================================================== *)
(** ** Strings: trim, digits, null bytes *)
(* ===================================================================== *)

Lemma trimEnd_cons (c : ascii) (s : string) :
  trimEnd (String c s)
  = match trimEnd s with
    | EmptyString => if is_white c then EmptyString else String c EmptyString
    | t => String c t
    end.
Proof. reflexivity. Qed.

Lemma trimEnd_cons_keep (c : ascii) (s : string) :
  is_white c = false -> trimEnd (String c s) = String c (trimEnd s).
Proof. intros H. rewrite trimEnd_cons, H. by destruct (trimEnd s). Qed.

Lemma trimStart_head (s : string) :
  trimStart s = "" \/ exists c t, trimStart s = String c t /\ is_white c = false.
Proof.
  induction s as [|c s IH]; simpl; [by left|].
  destruct (is_white c) eqn:W; [done|]. right. by exists c, s.
Qed.

Lemma trimEnd_idem (s : string) : trimEnd (trimEnd s) = trimEnd s.
Proof.
  induction s as [|c s IH]; [done|]. rewrite trimEnd_cons.
  destruct (trimEnd s) as [|c' t] eqn:E.
  - destruct (is_white c) eqn:W; [done|]. by rewrite trimEnd_cons, W.
  - by rewrite trimEnd_cons, IH.
Qed.

Lemma trim_idem (s : string) : trim (trim s) = trim s.
Proof.
  unfold trim. destruct (trimStart_head s) as [H|(c & t & H & W)]; rewrite H; [done|].
  rewrite (trimEnd_cons_keep _ _ W). cbn [trimStart]. rewrite W.
  rewrite <- (trimEnd_cons_keep _ _ W). apply trimEnd_idem.
Qed.

Lemma no_nul_remove_nul (s : string) : no_nul (remove_nul s) = true.
Proof.
  induction s as [|c s IH]; [done|]. simpl.
  destruct (nat_of_ascii c =? 0)%nat eqn:E; [done|]. simpl. by rewrite E.
Qed.

Lemma remove_nul_no_nul (s : string) : no_nul s = true -> remove_nul s = s.
Proof.
  induction s as [|c s IH]; [done|]. simpl.
  intros [Hc Hs]%andb_true_iff. apply negb_true_iff in Hc. rewrite Hc. by rewrite IH.
Qed.

Lemma no_nul_trimStart (s : string) : no_nul s = true -> no_nul (trimStart s) = true.
Proof.
  induction s as [|c s IH]; [done|]. simpl.
  intros [Hc Hs]%andb_true_iff. destruct (is_white c); [by apply IH|].
  simpl. by rewrite Hc, Hs.
Qed.

Lemma no_nul_trimEnd (s : string) : no_nul s = true -> no_nul (trimEnd s) = true.
Proof.
  induction s as [|c s IH]; [done|]. intros [Hc Hs]%andb_true_iff.
  rewrite trimEnd_cons. specialize (IH Hs).
  destruct (trimEnd s) as [|c' t].
  - destruct (is_white c); [done|]. simpl. by rewrite Hc.
  - simpl. simpl in IH. by rewrite Hc, IH.
Qed.

Lemma no_nul_trim (s : string) : no_nul s = true -> no_nul (trim s) = true.
Proof. intros H. by apply no_nul_trimEnd, no_nul_trimStart. Qed.

Lemma all_digits_digits_of (s : string) : all_digits (digits_of s) = true.
Proof.
  induction s as [|c s IH]; [done|]. simpl.
  destruct (is_digit c) eqn:E; [|done]. simpl. by rewrite E.
Qed.

Lemma digits_of_all_digits (s : string) : all_digits s = true -> digits_of s = s.
Proof.
  induction s as [|c s IH]; [done|]. simpl.
  intros [Hc Hs]%andb_true_iff. rewrite Hc. by rewrite IH.
Qed.

Lemma append_cons (c : ascii) (x y : string) :
  (String c x ++ y)%string = String c (x ++ y)%string.
Proof. reflexivity. Qed.

Lemma slice_to_from (n : nat) (s : string) :
  (slice_to n s ++ slice_from n s)%string = s.
Proof.
  revert s. induction n as [|n IH]; intros [|c s]; try done.
  cbn [slice_to slice_from]. rewrite append_cons. f_equal. apply IH.
Qed.

Lemma slice_to_all (n : nat) (s : string) :
  (String.length s <= n)%nat -> slice_to n s = s.
Proof.
  revert s. induction n as [|n IH]; intros [|c s]; simpl; try done; [lia|].
  intros H. rewrite IH; [done|lia].
Qed.

Lemma length_slice_to (n : nat) (s : string) : (String.length (slice_to n s) <= n)%nat.
Proof.
  revert s. induction n as [|n IH]; intros [|c s]; simpl; try lia.
  specialize (IH s). lia.
Qed.

Lemma all_digits_slice_to (n : nat) (s : string) :
  all_digits s = true -> all_digits (slice_to n s) = true.
Proof.
  revert s. induction n as [|n IH]; intros [|c s]; simpl; try done.
  intros [Hc Hs]%andb_true_iff. by rewrite Hc, IH.
Qed.

Lemma no_white_remove_white (s : string) : no_white (remove_white s) = true.
Proof.
  induction s as [|c s IH]; [done|]. simpl.
  destruct (is_white c) eqn:E; [done|]. simpl. by rewrite E.
Qed.

(* ===================================================================== *)
(** ** Field normalizers *)
(* ===================================================================== *)

(** X1 -- [normalizeLegacyId] answers a key in normal form: never the empty
    string, unchanged by [trim], and mapped to itself when normalized
    again. *)
Theorem normalizeLegacyId_normal (v : jsval) (k : string) :
  normalizeLegacyId v = Some k ->
  k <> "" /\ trim k = k /\ normalizeLegacyId (JStr k) = Some k.
Proof.
  assert (H : forall s, (if String.eqb (trim s) "" then None else Some (trim s)) = Some k ->
                        k <> "" /\ trim k = k /\ normalizeLegacyId (JStr k) = Some k).
  { intros s. destruct (String.eqb_spec (trim s) "") as [E|E]; [done|].
    intros [= <-]. split_and!; [done|apply trim_idem|].
    unfold normalizeLegacyId, js_String. rewrite trim_idem.
    by destruct (String.eqb_spec (trim s) ""). }
  destruct v; try done; apply H.
Qed.

(** X2 -- [normalizeZip] answers null exactly on a falsy input; otherwise
    its answer has at most 9 code units and holds, in order, the first 9
    digits of the input and nothing else but the hyphen it puts after the
    fifth digit when there are exactly 8. *)
Theorem normalizeZip_shape (zip : jsval) :
  (normalizeZip zip = None <-> truthy zip = false)
  /\ forall z, normalizeZip zip = Some z ->
       (String.length z <= 9)%nat
       /\ digits_of z = slice_to 9 (digits_of (js_String zip))
       /\ (String.length (digits_of (js_String zip)) = 8%nat ->
           String.length z = 9%nat /\ String.get 5 z = Some "-"%char)
       /\ (String.length (digits_of (js_String zip)) <> 8%nat -> all_digits z = true).
Proof.
  unfold normalizeZip. destruct (truthy zip); cbn [negb]; [|by split].
  pose proof (all_digits_digits_of (js_String zip)) as Hd. cbv zeta.
  set (ds := digits_of (js_String zip)) in *.
  split; [by destruct (String.length ds =? 8)%nat|].
  intros z. destruct (Nat.eqb_spec (String.length ds) 8) as [H8|H8]; intros Hz;
    apply (inj Some) in Hz; subst z.
  - destruct ds as [|c1 [|c2 [|c3 [|c4 [|c5 [|c6 [|c7 [|c8 [|c9 ds]]]]]]]]];
      simpl in H8; try discriminate.
    simpl in Hd. repeat (apply andb_true_iff in Hd as [? Hd]).
    split_and!; simpl; try done.
    replace (is_digit "-") with false by reflexivity.
    by repeat match goal with H : is_digit _ = true |- _ => rewrite H; clear H end.
  - split_and!; [apply length_slice_to| |done|].
    + apply digits_of_all_digits. by apply all_digits_slice_to.
    + intros _. by apply all_digits_slice_to.
Qed.

(** X3 -- [normalizeCpf] keeps the digits only; normalizing its answer again
    gives it back, except that an answer without any digit becomes null. *)
Theorem normalizeCpf_digits (cpf : jsval) :
  (normalizeCpf cpf = None <-> truthy cpf = false)
  /\ forall z, normalizeCpf cpf = Some z ->
       all_digits z = true
       /\ normalizeCpf (JStr z) = (if String.eqb z "" then None else Some z).
Proof.
  unfold normalizeCpf. destruct (truthy cpf); simpl; [|by split].
  split; [done|]. intros z [= <-].
  pose proof (all_digits_digits_of (js_String cpf)) as Hd. split; [done|].
  destruct (String.eqb _ ""); simpl; [done|]. by rewrite digits_of_all_digits.
Qed.

(** X4 -- [normalizePhone] removes every white space, so its final [trim]
    changes nothing; [normalizePhoneOrDefault] never answers the empty
    string when the fallback is not empty, and answers the fallback for a
    phone that is falsy or all blanks. *)
Theorem normalizePhone_no_white (phone : jsval) (fallback : string) :
  (forall z, normalizePhone phone = Some z ->
             z = remove_white (js_String phone) /\ no_white z = true)
  /\ (fallback <> "" -> normalizePhoneOrDefault phone fallback <> "")
  /\ (normalizePhoneOrDefault phone fallback = fallback
      \/ (normalizePhoneOrDefault phone fallback = remove_white (js_String phone)
          /\ truthy phone = true)).
Proof.
  unfold normalizePhoneOrDefault, normalizePhone.
  pose proof (no_white_remove_white (js_String phone)) as Hw.
  rewrite (trim_no_white _ Hw).
  destruct (truthy phone); simpl.
  - split_and!.
    + by intros z [= <-].
    + intros Hf. by destruct (String.eqb_spec (remove_white (js_String phone)) "").
    + destruct (String.eqb _ ""); [by left|by right].
  - split_and!; [done|done|by left].
Qed.

Lemma sanitizeOptionalString_facts (v : jsval) (s : string) :
  sanitizeOptionalString v = Some s ->
  s <> "" /\ no_nul s = true /\ trim s = s /\ sanitizeOptionalString (JStr s) = Some s.
Proof.
  unfold sanitizeOptionalString.
  destruct (stripNullBytes v) as [cleaned|] eqn:Hc; [|done].
  assert (Hn : no_nul cleaned = true).
  { destruct v; simpl in Hc; try done; injection Hc as <-; apply no_nul_remove_nul. }
  cbv zeta. destruct (String.eqb_spec (trim cleaned) "") as [E|E]; [done|].
  intros [= <-]. pose proof (no_nul_trim _ Hn) as Ht.
  split_and!; [done|done|apply trim_idem|].
  unfold stripNullBytes, js_String. rewrite (remove_nul_no_nul _ Ht), trim_idem.
  by destruct (String.eqb_spec (trim cleaned) "").
Qed.

(** X5 -- [sanitizeOptionalString] answers null or a string that is not
    empty, holds no null byte, is unchanged by [trim], and is left as it is
    when sanitized again. *)
Theorem sanitizeOptionalString_normal (v : jsval) (s : string) :
  sanitizeOptionalString v = Some s ->
  s <> "" /\ no_nul s = true /\ trim s = s /\ sanitizeOptionalString (JStr s) = Some s.
Proof.
  apply sanitizeOptionalString_facts.
Qed.

(** X6 -- [sanitizeRequiredString] is [sanitizeOptionalString] with the
    empty string in place of null: its answer holds no null byte, is
    unchanged by [trim], and is left as it is when sanitized again. *)
Theorem sanitizeRequiredString_normal (v : jsval) :
  sanitizeRequiredString v = default "" (sanitizeOptionalString v)
  /\ no_nul (sanitizeRequiredString v) = true
  /\ trim (sanitizeRequiredString v) = sanitizeRequiredString v
  /\ sanitizeRequiredString (JStr (sanitizeRequiredString v)) = sanitizeRequiredString v.
Proof.
  unfold sanitizeRequiredString, sanitizeOptionalString.
  destruct (stripNullBytes v) as [cleaned|] eqn:Hc; simpl; [|done].
  assert (Hn : no_nul cleaned = true).
  { destruct v; simpl in Hc; try done; injection Hc as <-; apply no_nul_remove_nul. }
  pose proof (no_nul_trim _ Hn) as Ht.
  split_and!.
  - by destruct (String.eqb_spec (trim cleaned) "") as [->|].
  - done.
  - apply trim_idem.
  - by rewrite (remove_nul_no_nul _ Ht), trim_idem.
Qed.

Lemma includes_In (l : list string) (v : string) : includes l v = true <-> In v l.
Proof.
  unfold includes. rewrite existsb_exists. split.
  - intros (x & Hx & E). apply String.eqb_eq in E. by subst.
  - intros H. exists v. split; [done|apply String.eqb_refl].
Qed.

Lemma split_sep_not_nil (s : string) : split_sep s <> [].
Proof.
  induction s as [|c s IH]; simpl; [done|].
  destruct (is_sep c); [done|]. by destruct (split_sep s).
Qed.

Lemma split_sep_no_nul (s : string) :
  no_nul s = true -> Forall (fun p => no_nul p = true) (split_sep s).
Proof.
  induction s as [|c s IH]; simpl; [by repeat constructor|].
  intros [Hc Hs]%andb_true_iff. specialize (IH Hs).
  destruct (is_sep c); [by constructor|].
  destruct (split_sep s) as [|p ps]; [by repeat constructor; simpl; rewrite Hc|].
  inversion IH; subst. constructor; [|done]. simpl. by rewrite Hc.
Qed.

Section NormalizerProperties.
Context `{Env : Environment}.

(** X7 -- [mapUserRole] always answers one of the four roles of the new
    schema, whatever the legacy value. *)
Theorem mapUserRole_range (role : jsval) :
  In (mapUserRole role) ["student"; "company"; "institution"; "admin"].
Proof.
  unfold mapUserRole. cbv zeta.
  destruct (_ || _); [simpl; tauto|].
  destruct (includes _ _) eqn:E; [by apply includes_In|simpl; tauto].
Qed.

(** X8 -- [mapLanguageLevel] answers null exactly when the value is blank
    once trimmed and lower-cased, and otherwise one of the four levels,
    [beginner] for every value it does not know. *)
Theorem mapLanguageLevel_range (value : jsval) :
  let v := toLowerCase (trim (js_String (nullish value (JStr "")))) in
  (mapLanguageLevel value = None <-> v = "")
  /\ (forall l, mapLanguageLevel value = Some l ->
        In l ["beginner"; "intermediate"; "advanced"; "native"])
  /\ (v <> "" ->
      ~ In v ["nenhum"; basico_accented; "basico"; intermediario_accented;
              "intermediario"; avancado_cedilla; "avancado"; "native"] ->
      mapLanguageLevel value = Some "beginner").
Proof.
  intros v. unfold mapLanguageLevel. fold v.
  destruct (String.eqb_spec v "") as [E|E].
  - split_and!; [done|done|done].
  - split_and!.
    + split; [|done].
      destruct (includes _ v); [done|]. destruct (includes _ v); [done|].
      destruct (includes _ v); [done|]. by destruct (String.eqb v "native").
    + intros l.
      destruct (includes _ v); [intros [= <-]; simpl; tauto|].
      destruct (includes _ v); [intros [= <-]; simpl; tauto|].
      destruct (includes _ v); [intros [= <-]; simpl; tauto|].
      destruct (String.eqb v "native"); intros [= <-]; simpl; tauto.
    + intros _ Hn.
      destruct (includes ["nenhum"; basico_accented; "basico"] v) eqn:E1; [done|].
      destruct (includes [intermediario_accented; "intermediario"] v) eqn:E2.
      { apply includes_In in E2. destruct Hn. simpl in *. intuition. }
      destruct (includes [avancado_cedilla; "avancado"] v) eqn:E3.
      { apply includes_In in E3. destruct Hn. simpl in *. intuition. }
      destruct (String.eqb_spec v "native") as [E4|E4]; [|done].
      destruct Hn. simpl. intuition.
Qed.

End NormalizerProperties.

(** X9 -- [toStringArray] never answers an empty array: it answers null or
    a list that is not empty and whose entries are not empty, hold no null
    byte and are unchanged by [trim]. *)
Theorem toStringArray_entries (value : jsany) (l : list string) :
  toStringArray value = Some l ->
  l <> []
  /\ Forall (fun s => s <> "" /\ no_nul s = true /\ trim s = s) l.
Proof.
  unfold toStringArray. destruct value as [v|items].
  - assert (H : match sanitizeOptionalString (JStr (js_String v)) with
                | Some raw =>
                    match List.filter (fun p => negb (String.eqb p ""))
                                      (map trim (split_sep raw)) with
                    | [] => Some [raw]
                    | _ :: _ => Some (List.filter (fun p => negb (String.eqb p ""))
                                                  (map trim (split_sep raw)))
                    end
                | None => None
                end = Some l ->
                l <> [] /\ Forall (fun s => s <> "" /\ no_nul s = true /\ trim s = s) l).
    { destruct (sanitizeOptionalString _) as [raw|] eqn:Hraw; [|done].
      apply sanitizeOptionalString_facts in Hraw as (Hne & Hn & Ht & _).
      destruct (List.filter _ _) as [|p ps] eqn:Hparts.
      - intros [= <-]. split; [done|]. by repeat constructor.
      - intros [= <-]. split; [done|]. rewrite <- Hparts.
        apply List.Forall_forall. intros s [Hs Hf]%List.filter_In.
        apply in_map_iff in Hs as (q & <- & Hq).
        pose proof (split_sep_no_nul raw Hn) as Hall.
        rewrite List.Forall_forall in Hall.
        split_and!.
        + apply negb_true_iff in Hf. by destruct (String.eqb_spec (trim q) "").
        + by apply no_nul_trim, Hall.
        + apply trim_idem. }
    destruct v; try done; apply H.
  - destruct (omap _ items) as [|p ps] eqn:Hc; [done|].
    intros [= <-]. split; [done|]. rewrite <- Hc.
    apply Forall_forall. intros s Hs.
    apply list_elem_of_omap in Hs as (x & _ & Hx).
    apply sanitizeOptionalString_facts in Hx. tauto.
Qed.

(* ===================================================================== *)
(** ** More on the identity map *)
(* ===================================================================== *)

Section IdentityMapMore.
Context `{Env : Environment}.

Lemma bind_unit_ret (c : M unit) (w : World) : bind c (fun _ => ret tt) w = c w.
Proof. unfold bind, ret. by destruct (c w) as [[[]|e] w']. Qed.

(** X10 -- [mapGetAny] reads only.  It never throws; it answers the mapping
    of the first candidate that normalizes to a key with a non-empty
    mapping, the candidates before it having none; and it answers null
    exactly when no candidate has one.  A mapping to the empty string counts
    as none. *)
Theorem mapGetAny_result (e : string) (cs : list jsval) (w : World) :
  store_kept w (mapGetAny e cs w).2
  /\ match (mapGetAny e cs w).1 with
     | Ok None => Forall (misses (migration_map w) e) cs
     | Ok (Some id) =>
         id <> ""
         /\ exists pre c post v,
              cs = pre ++ c :: post
              /\ Forall (misses (migration_map w) e) pre
              /\ normalizeLegacyId c = Some v
              /\ migration_map w !! (e, v) = Some id
     | Throw _ => False
     end.
Proof.
  split; [apply read_op_mapGetAny|].
  revert w. induction cs as [|c cs IH]; intros w; cbn [mapGetAny]; [by constructor|].
  destruct (normalizeLegacyId c) as [v|] eqn:Hn.
  - unfold bind. cbn [mapGet js_String fst snd].
    destruct (migration_map w !! (e, v)) as [id|] eqn:Hv; cbn [truthy_id].
    + destruct (String.eqb_spec id "") as [Hid|Hid]; cbn [negb].
      * specialize (IH (log (SSelectMap e v) w)). cbn [log migration_map] in IH.
        assert (Hmiss : misses (migration_map w) e c).
        { intros v' Hv'. rewrite Hn in Hv'. injection Hv' as <-.
          rewrite Hv. simpl. by rewrite Hid. }
        destruct (mapGetAny e cs _).1 as [[id'|]|msg]; [|by constructor|done].
        destruct IH as (Hne & pre & c' & post & v' & -> & Hpre & Hc' & Hv').
        split; [done|]. exists (c :: pre), c', post, v'.
        split_and!; [done|by constructor|done|done].
      * split; [done|]. exists [], c, cs, v. split_and!; [done|constructor|done|done].
    + specialize (IH (log (SSelectMap e v) w)). cbn [log migration_map] in IH.
      assert (Hmiss : misses (migration_map w) e c).
      { intros v' Hv'. rewrite Hn in Hv'. injection Hv' as <-. by rewrite Hv. }
      destruct (mapGetAny e cs _).1 as [[id'|]|msg]; [|by constructor|done].
      destruct IH as (Hne & pre & c' & post & v' & -> & Hpre & Hc' & Hv').
      split; [done|]. exists (c :: pre), c', post, v'.
      split_and!; [done|by constructor|done|done].
  - specialize (IH w).
    assert (Hmiss : misses (migration_map w) e c).
    { intros v' Hv'. by rewrite Hn in Hv'. }
    destruct (mapGetAny e cs w).1 as [[id'|]|msg]; [|by constructor|done].
    destruct IH as (Hne & pre & c' & post & v' & -> & Hpre & Hc' & Hv').
    split; [done|]. exists (c :: pre), c', post, v'.
    split_and!; [done|by constructor|done|done].
Qed.

Lemma mapPutBoth_one_key (e : string) (a b : jsval) (n k : string) (w : World) :
  (normalizeLegacyId a = Some k
   /\ (normalizeLegacyId b = Some k \/ normalizeLegacyId b = None))
  \/ (normalizeLegacyId a = None /\ normalizeLegacyId b = Some k) ->
  mapPutBoth e a b n w = mapPut e (JStr k) n w.
Proof.
  unfold mapPutBoth. intros [[-> [-> | ->]] | [-> ->]].
  - rewrite bool_decide_eq_false_2 by (intros H; by apply H). apply bind_unit_ret.
  - apply bind_unit_ret.
  - rewrite bool_decide_eq_true_2 by done. reflexivity.
Qed.

(** X11 -- [mapPutBoth] issues no statement when neither candidate
    normalizes to a key, and is a single [mapPut] under the normalized key
    when only one does or when both normalize to the same key. *)
Theorem mapPutBoth_dedupe (e : string) (a b : jsval) (n : string) (w : World) :
  (normalizeLegacyId a = None -> normalizeLegacyId b = None ->
   mapPutBoth e a b n w = (Ok tt, w))
  /\ (forall k,
        (normalizeLegacyId a = Some k
         /\ (normalizeLegacyId b = Some k \/ normalizeLegacyId b = None))
        \/ (normalizeLegacyId a = None /\ normalizeLegacyId b = Some k) ->
        mapPutBoth e a b n w = mapPut e (JStr k) n w).
Proof.
  split.
  - unfold mapPutBoth. intros -> ->. reflexivity.
  - intros k. apply mapPutBoth_one_key.
Qed.

(** X12 -- when [mapPutBoth] returns normally, its candidates do not
    normalize to two different keys, and (for a non-empty id) [mapGetAny]
    then answers that id for every candidate that normalizes to the key
    stored, blanks around it or not. *)
Theorem mapPutBoth_then_mapGetAny (e : string) (a b : jsval) (n : string)
    (w w' : World) :
  mapPutBoth e a b n w = (Ok tt, w') ->
  n <> "" ->
  ~ (exists ka kb, normalizeLegacyId a = Some ka /\ normalizeLegacyId b = Some kb
                   /\ ka <> kb)
  /\ forall c k rest,
       normalizeLegacyId c = Some k ->
       normalizeLegacyId a = Some k \/ normalizeLegacyId b = Some k ->
       (mapGetAny e (c :: rest) w').1 = Ok (Some n).
Proof.
  intros Hput Hn.
  assert (Hnot : ~ (exists ka kb, normalizeLegacyId a = Some ka
                                  /\ normalizeLegacyId b = Some kb /\ ka <> kb)).
  { intros (ka & kb & Ha & Hb & Hne).
    destruct (mapPutBoth_distinct_keys_throw e a b ka kb n w Ha Hb Hne) as [Ht _].
    by rewrite Hput in Ht. }
  split; [done|]. intros c k rest Hc Hk.
  assert (Hone : mapPutBoth e a b n w = mapPut e (JStr k) n w).
  { apply mapPutBoth_one_key.
    destruct (normalizeLegacyId a) as [ka|] eqn:Ha,
             (normalizeLegacyId b) as [kb|] eqn:Hb.
    - destruct (decide (ka = kb)) as [->|Hne]; [|destruct Hnot; eauto].
      assert (k = kb) as -> by (destruct Hk; congruence). left. split; [done|by left].
    - assert (k = ka) as -> by (destruct Hk; congruence). left. split; [done|by right].
    - assert (k = kb) as -> by (destruct Hk; congruence). by right.
    - destruct Hk; congruence. }
  rewrite Hone in Hput. apply mapPut_Ok in Hput as [_ Hm].
  apply (mapGetAny_first_hit e [] rest c k n w'); [constructor|done| |done].
  rewrite Hm. apply lookup_insert_eq.
Qed.

Lemma resolveId_mapped_eq (e : string) (k : legacyKey) (n : string) (w : World) :
  migration_map w !! (e, js_String k) = Some n ->
  resolveId e k w = (Ok n, log (SSelectMap e (js_String k)) w).
Proof. intros H. unfold resolveId, bind. destruct k; simpl in *; by rewrite H. Qed.

Lemma resolveId_unmapped_eq (e : string) (k : legacyKey) (w : World) :
  migration_map w !! (e, js_String k) = None ->
  resolveId e k w
  = (Ok (uuidv7 (minted w)),
     set_minted (S (minted w)) (log (SSelectMap e (js_String k)) w)).
Proof. intros H. unfold resolveId, bind. destruct k; simpl in *; by rewrite H. Qed.

(** X13 -- [resolveId] does not persist what it mints: on a key without
    mapping, two calls in a row answer two successive identifiers of the
    generator and leave the identity map and the destination as they were;
    on a null legacy id it mints without looking at the map. *)
Theorem resolveId_mints_until_committed (E : string) (L : legacyKey) (w : World) :
  resolveId E JNull w = (Ok (uuidv7 (minted w)), set_minted (S (minted w)) w)
  /\ (migration_map w !! (E, js_String L) = None ->
      (resolveId E L w).1 = Ok (uuidv7 (minted w))
      /\ (resolveId E L (resolveId E L w).2).1 = Ok (uuidv7 (S (minted w)))
      /\ store_kept w (resolveId E L (resolveId E L w).2).2).
Proof.
  split; [reflexivity|]. intros H.
  rewrite (resolveId_unmapped_eq E L w H). cbn [fst snd].
  rewrite resolveId_unmapped_eq by done. done.
Qed.

Lemma targetUpsert_map (table id : string) (refs : list (option string)) (row : Row)
    (w : World) :
  migration_map (targetUpsert table id refs row w).2 = migration_map w
  /\ minted (targetUpsert table id refs row w).2 = minted w.
Proof. unfold targetUpsert. by destruct (dest_upsert _ _ _ _ _). Qed.

(** X14 -- [dimUpsert] is stable under reruns for a row that has an id.
    After a run that returned [true], a run on the same row (in the same
    process or another one, from the same identity map) mints nothing,
    sends its destination statement with the id of the first run, and
    leaves the identity map unchanged; it returns [true] unless the
    destination statement fails. *)
Theorem dimUpsert_rerun (table : string) (row : Row) (k : legacyKey) (ctx ctx' : Ctx)
    (w w1 w' : World) :
  field row "id" = key_val k ->
  dimUpsert table row ctx w = (Ok true, w1) ->
  migration_map w' = migration_map w1 ->
  exists id,
    migration_map w1 !! (table, js_String k) = Some id
    /\ migration_map (dimUpsert table row ctx' w').2 = migration_map w'
    /\ minted (dimUpsert table row ctx' w').2 = minted w'
    /\ (exists js, journal (dimUpsert table row ctx' w').2
                   = journal w' ++ SSelectMap table (js_String k)
                                :: SDestUpsert table id :: js)
    /\ ((dimUpsert table row ctx' w').1 = Ok true
        \/ exists msg, (dimUpsert table row ctx' w').1 = Throw msg
                       /\ dest_upsert table id [] row (dest w') = inl msg).
Proof.
  intros Hid Hrun Hmap. unfold dimUpsert in Hrun. rewrite Hid in Hrun.
  unfold bind in Hrun.
  pose proof (resolveId_map table k w) as Hm0.
  destruct (resolveId table k w) as [[id|?] wa]; [|done]. cbn [snd] in Hm0.
  destruct (targetUpsert_map table id [] row wa) as [Hm1 _].
  destruct (targetUpsert table id [] row wa) as [[[]|?] wb]; [|done]. cbn [snd] in Hm1.
  destruct (mapPut table k id wb) as [[[]|?] wc] eqn:Hput; [|done].
  injection Hrun as <-. apply mapPut_Ok in Hput as [Hfree Hm2].
  exists id.
  assert (Hl : migration_map w' !! (table, js_String k) = Some id).
  { rewrite Hmap, Hm2. apply lookup_insert_eq. }
  assert (Hfree' : claimed_elsewhere table (js_String k) id (migration_map w') = false).
  { apply claimed_elsewhere_false. intros l' Hl'.
    destruct (decide (l' = js_String k)) as [|Hne]; [done|].
    rewrite claimed_elsewhere_false in Hfree. apply Hfree.
    rewrite Hmap, Hm2, lookup_insert_ne in Hl' by congruence. done. }
  split; [by rewrite <- Hmap|].
  unfold dimUpsert. rewrite Hid. unfold bind.
  rewrite (resolveId_mapped_eq table k id w' Hl).
  unfold targetUpsert. cbn [log dest].
  destruct (dest_upsert table id [] row (dest w')) as [msg|d] eqn:Hd.
  - simpl. split_and!; [done|done| |right; by exists msg].
    exists []. by rewrite <- !app_assoc.
  - unfold mapPut. simpl. rewrite Hfree'. simpl.
    split_and!; [by apply insert_id|done| |by left].
    eexists [_]. by rewrite <- !app_assoc.
Qed.

(** X15 -- [dimUpsert] on a row whose id is null or undefined never looks
    the row up: every run sends the destination statement with a newly
    minted id, and a run that returns [true] points the key it commits
    ([String] of the id) at that new id. *)
Theorem dimUpsert_without_id (table : string) (row : Row) (ctx : Ctx) (w : World) :
  field row "id" = JNull \/ field row "id" = JUndefined ->
  minted (dimUpsert table row ctx w).2 = S (minted w)
  /\ (exists js, journal (dimUpsert table row ctx w).2
                 = journal w ++ SDestUpsert table (uuidv7 (minted w)) :: js)
  /\ ((dimUpsert table row ctx w).1 = Ok true ->
      migration_map (dimUpsert table row ctx w).2 !! (table, js_String (field row "id"))
      = Some (uuidv7 (minted w))).
Proof.
  intros Hid. unfold dimUpsert, bind.
  assert (Hr : resolveId table (field row "id") w
               = (Ok (uuidv7 (minted w)), set_minted (S (minted w)) w)).
  { by destruct Hid as [-> | ->]. }
  rewrite Hr. unfold targetUpsert. simpl.
  destruct (dest_upsert _ _ _ _ _) as [msg|d].
  - simpl. split_and!; [done|by exists []|done].
  - unfold mapPut. simpl.
    destruct (claimed_elsewhere _ _ _ _); simpl.
    + split_and!; [done| |done]. eexists [_]. by rewrite <- !app_assoc.
    + split_and!; [done| |intros _; apply lookup_insert_eq].
      eexists [_]. by rewrite <- !app_assoc.
Qed.

End IdentityMapMore.

(* ===================================================================== *)
(** ** More on the job runner *)
(* ===================================================================== *)

Section RunnerMore.
Context `{Env : Environment}.


(** X17 -- when the extraction query of a job raises, no row is processed:
    the only statements sent are the insert and the update of the run, which
    is closed as [failed] with the message; nothing is added to
    [migration_errors] and the identity map and the destination are as they
    were. *)
Theorem runJob_extraction_failure (p : Process) (job : Job) (ctx : Ctx) (w : World)
    (msg : string) :
  filtered_out ctx job = false ->
  source p (extractSql job (ctx_mode ctx)) = inl msg ->
  (runJob p job ctx w).1 = Ok tt
  /\ journal (runJob p job ctx w).2
     = journal w ++ [SInsertRun (S (length (migration_runs w))) (key job);
                     SUpdateRun (S (length (migration_runs w))) Failed]
  /\ migration_runs (runJob p job ctx w).2
     = migration_runs w ++
       [{| run_job_name := key job; run_mode := mode p; run_status := Failed;
           run_finished := true; run_error_message := Some msg |}]
  /\ migration_errors (runJob p job ctx w).2 = migration_errors w
  /\ store_kept w (runJob p job ctx w).2
  /\ console (runJob p job ctx w).2 = console w ++ [CFailed (key job) msg].
Proof.
  intros Hf Hs. unfold runJob. rewrite Hf.
  unfold bind at 1. cbn [startRun]. unfold try_catch, bind at 1, sourceQuery.
  rewrite Hs. simpl. split_and!; try done.
  - by rewrite <- app_assoc.
  - rewrite alter_app_r_alt by done. by rewrite Nat.sub_diag.
Qed.

Lemma processRow_Ok (p : Process) (job : Job) (ctx : Ctx) (runId : nat) (row : Row)
    (c : nat * nat) (w : World) :
  exists c' w', processRow p job ctx runId row c w = (Ok c', w').
Proof.
  unfold processRow, bind, try_catch.
  destruct (upsert job row ctx w) as [[[|]|msg] wu]; simpl;
    destruct (at_batch _ _); simpl; eauto.
Qed.

Lemma forRows_Ok (p : Process) (job : Job) (ctx : Ctx) (runId : nat) (rows : list Row)
    (c : nat * nat) (w : World) :
  exists c' w', forRows p job ctx runId rows c w = (Ok c', w').
Proof.
  revert c w. induction rows as [|row rows IH]; intros c w; [by exists c, w|].
  cbn [forRows]. unfold bind.
  destruct (processRow_Ok p job ctx runId row c w) as (c1 & w1 & ->). apply IH.
Qed.

Lemma runJob_Ok (p : Process) (job : Job) (ctx : Ctx) (w : World) :
  (runJob p job ctx w).1 = Ok tt.
Proof.
  unfold runJob. destruct (filtered_out ctx job); [done|].
  unfold bind at 1. cbn [startRun]. unfold try_catch, bind at 1, sourceQuery.
  destruct (source p _) as [msg|rows]; [done|].
  unfold bind at 1.
  destruct (forRows_Ok p job ctx (S (length (migration_runs w))) rows (0, 0)%nat
              (log (SInsertRun (S (length (migration_runs w))) (key job))
                 (set_runs (migration_runs w ++
                    [{| run_job_name := key job; run_mode := mode p;
                        run_status := Running; run_finished := false;
                        run_error_message := None |}]) w)))
    as (c' & w' & ->).
  done.
Qed.

Lemma forJobs_Ok (p : Process) (js : list Job) (ctx : Ctx) (w : World) :
  (forJobs p js ctx w).1 = Ok tt.
Proof.
  revert w. induction js as [|j js IH]; intros w; [done|].
  cbn [forJobs]. unfold bind. pose proof (runJob_Ok p j ctx w) as H.
  destruct (runJob p j ctx w) as [[[]|e] w1]; [apply IH|done].
Qed.

(** X18 -- as long as the statements on the control tables and the start-up
    select succeed, [main] returns normally whatever the extraction queries
    and the upserts of the jobs do: a failing extraction and a throwing
    upsert are both caught inside [runJob], and the next job is run. *)
Theorem main_never_throws (p : Process) (registry : list Job) (w : World) :
  (main_on p registry w).1 = Ok tt /\ (main p w).1 = Ok tt.
Proof. split; apply forJobs_Ok. Qed.

Lemma forJobs_all_filtered (p : Process) (js : list Job) (ctx : Ctx) (w : World) :
  Forall (fun j => filtered_out ctx j = true) js -> forJobs p js ctx w = (Ok tt, w).
Proof.
  induction 1 as [|j js Hj _ IH]; [done|].
  cbn [forJobs]. unfold bind. by rewrite (runJob_filtered _ _ _ _ Hj).
Qed.

(** X19 -- a table filter that names no job of the registry makes [main] do
    nothing beyond its two start-up statements: no run is opened, nothing is
    extracted or written, and [main] still returns normally. *)
Theorem main_unknown_table (p : Process) (registry : list Job) (w : World) (f : string) :
  tableFilter p = Some f ->
  f <> "" ->
  (forall j, In j registry -> key j <> f) ->
  main_on p registry w = (Ok tt, log SSelectStates (log SDdl w)).
Proof.
  intros Hf Hne Hk. rewrite main_on_unfold. apply forJobs_all_filtered.
  apply List.Forall_forall. intros j Hj. apply (proj1 (sort_by_level_In _ _)) in Hj.
  unfold filtered_out, main_ctx. cbn [ctx_tableFilter]. rewrite Hf.
  destruct (String.eqb_spec f "") as [|_]; [done|].
  destruct (String.eqb_spec f (key j)) as [E|_]; [|done].
  destruct (Hk j Hj). done.
Qed.


Lemma insert_by_level_head (j : Job) (l : list Job) :
  Forall (by_level j) l -> insert_by_level j l = j :: l.
Proof.
  intros H. destruct l as [|x r]; [done|]. inversion H as [|? ? Hx _]; subst.
  simpl. unfold by_level in Hx. by rewrite (proj2 (Z.leb_le _ _) Hx).
Qed.

Lemma at_level_insert (k : Z) (j : Job) (l : list Job) :
  at_level k (insert_by_level j l)
  = if (level j =? k)%Z then j :: at_level k l else at_level k l.
Proof.
  unfold at_level. induction l as [|x r IH]; [done|].
  cbn [insert_by_level]. destruct (Z.leb_spec (level j) (level x)) as [Hle|Hgt].
  - done.
  - cbn [List.filter]. rewrite IH.
    destruct (Z.eqb_spec (level j) k) as [Ej|Ej]; [|done].
    destruct (Z.eqb_spec (level x) k) as [Ex|Ex]; [lia|done].
Qed.

Lemma jobs_sorted : StronglySorted by_level jobs.
Proof.
  unfold jobs.
  repeat (constructor; [|repeat constructor; unfold by_level; simpl; lia]).
  constructor.
Qed.

(** X21 -- the sort of the registry is stable and leaves a sorted registry
    as it is: the jobs of one level keep the order of the registry, and the
    jobs of index.ts, already in level order, are run in the order they are
    written. *)
Theorem sort_by_level_stable (l : list Job) :
  (forall k, at_level k (sort_by_level l) = at_level k l)
  /\ (StronglySorted by_level l -> sort_by_level l = l)
  /\ sort_by_level jobs = jobs.
Proof.
  assert (Hid : forall l', StronglySorted by_level l' -> sort_by_level l' = l').
  { induction 1 as [|j r Hr IH Hj]; [done|].
    cbn [sort_by_level]. rewrite IH. by apply insert_by_level_head. }
  split_and!.
  - intros k. induction l as [|j r IH]; [done|].
    cbn [sort_by_level]. rewrite at_level_insert, IH. unfold at_level.
    cbn [List.filter]. done.
  - apply Hid.
  - apply Hid, jobs_sorted.
Qed.

End RunnerMore.

(* ===================================================================== *)
(** ** Start-up and the error sink *)
(* ===================================================================== *)

Section EngineMore.
Context `{Env : Environment}.

Lemma fold_states_other (rows : list (jsval * string)) (m0 : gmap string string)
    (k : string) :
  Forall (fun r : jsval * string => toUpperCase (js_String r.1) <> k) rows ->
  fold_left (fun m (r : jsval * string) => <[toUpperCase (js_String r.1) := r.2]> m)
            rows m0 !! k
  = m0 !! k.
Proof.
  intros H. revert m0. induction H as [|r rows Hr _ IH]; intros m0; [done|].
  cbn [fold_left]. rewrite IH. by apply lookup_insert_ne.
Qed.

(** X22 -- [bootstrapStates] only reads, and keys the states by the upper
    case of [String(acronym)]: a key answers the id of the last row of the
    [state] table that has it, and a key that no row has answers nothing. *)
Theorem bootstrapStates_last_row (w : World) :
  exists m,
    bootstrapStates w = (Ok m, log SSelectStates w)
    /\ (forall pre acr id post,
          select_states (dest w) = pre ++ (acr, id) :: post ->
          Forall (fun r : jsval * string =>
                    toUpperCase (js_String r.1) <> toUpperCase (js_String acr)) post ->
          m !! toUpperCase (js_String acr) = Some id)
    /\ (forall k,
          Forall (fun r : jsval * string => toUpperCase (js_String r.1) <> k)
                 (select_states (dest w)) ->
          m !! k = None).
Proof.
  eexists. split_and!; [reflexivity| |].
  - intros pre acr id post Hrows Hpost. rewrite Hrows, fold_left_app.
    cbn [fold_left]. rewrite (fold_states_other _ _ _ Hpost).
    apply lookup_insert_eq.
  - intros k Hk. by rewrite (fold_states_other _ _ _ Hk).
Qed.

Lemma forRows_errors (p : Process) (job : Job) (ctx : Ctx) (runId : nat)
    (rows : list Row) (c : nat * nat) (w : World) :
  data_job job ->
  exists es,
    migration_errors (forRows p job ctx runId rows c w).2 = migration_errors w ++ es
    /\ Forall (fun e => err_run_id e = runId /\ err_job_name e = key job
                        /\ (err_stage e = Load \/ err_stage e = Validate)) es.
Proof.
  intros Hj. revert c w. induction rows as [|row rows IH]; intros c w.
  - exists []. split; [by rewrite app_nil_r|constructor].
  - destruct (processRow_spec p job ctx runId row c w Hj) as (w1 & Hp & He & _).
    cbn [forRows]. unfold bind. rewrite Hp.
    destruct (IH (S c.1, match (upsert job row ctx w).1 with
                         | Ok true => S c.2 | _ => c.2 end) w1) as (es & Hes & Hall).
    rewrite Hes, He, <- app_assoc. eexists. split; [reflexivity|].
    apply Forall_app. split; [|done].
    destruct (upsert job row ctx w).1 as [[|]|msg];
      [constructor
      |apply Forall_singleton; split_and!; [done|done|by right]
      |apply Forall_singleton; split_and!; [done|done|by left]].
Qed.

Lemma runJob_errors (p : Process) (job : Job) (ctx : Ctx) (w : World) :
  data_job job ->
  exists es,
    migration_errors (runJob p job ctx w).2 = migration_errors w ++ es
    /\ Forall (fun e => err_run_id e = S (length (migration_runs w))
                        /\ err_job_name e = key job
                        /\ (err_stage e = Load \/ err_stage e = Validate)) es.
Proof.
  intros Hj. unfold runJob. destruct (filtered_out ctx job).
  { exists []. split; [by rewrite app_nil_r|constructor]. }
  unfold bind at 1. cbn [startRun]. unfold try_catch, bind at 1, sourceQuery.
  destruct (source p _) as [msg|rows].
  { exists []. split; [simpl; by rewrite app_nil_r|constructor]. }
  set (w1 := log _ _).
  destruct (forRows_errors p job ctx (S (length (migration_runs w))) rows (0, 0)%nat
              w1 Hj) as (es & Hes & Hall).
  destruct (forRows_Ok p job ctx (S (length (migration_runs w))) rows (0, 0)%nat w1)
    as (c' & w2 & Hrows).
  unfold bind. rewrite Hrows in *. simpl in *. by exists es.
Qed.

Lemma error_well_formed_grow (runs : list RunRow) (r : RunRow) (e : ErrorRow) :
  error_well_formed runs e -> error_well_formed (runs ++ [r]) e.
Proof.
  intros (Hs & i & r' & Hi & Hl & Hn). split; [done|].
  exists i, r'. split_and!; [done| |done]. by apply lookup_app_l_Some.
Qed.

Lemma forJobs_errors (p : Process) (js : list Job) (ctx : Ctx) (w : World) :
  Forall data_job js ->
  Forall (error_well_formed (migration_runs w)) (migration_errors w) ->
  Forall (error_well_formed (migration_runs (forJobs p js ctx w).2))
         (migration_errors (forJobs p js ctx w).2)
  /\ exists es, migration_errors (forJobs p js ctx w).2 = migration_errors w ++ es.
Proof.
  intros Hjs. revert w. induction Hjs as [|job rest Hj Hrest IH]; intros w Hw.
  - split; [done|]. exists []. by rewrite app_nil_r.
  - cbn [forJobs]. unfold bind.
    destruct (filtered_out ctx job) eqn:Hf.
    + rewrite (runJob_filtered _ _ _ _ Hf). by apply IH.
    + destruct (runJob_spec p job ctx w Hj Hf) as (w1 & j1 & Hrun & R1 & _).
      destruct (runJob_errors p job ctx w Hj) as (es & Hes & Hall).
      rewrite Hrun in *. cbn [snd] in Hes.
      assert (Hw1 : Forall (error_well_formed (migration_runs w1)) (migration_errors w1)).
      { rewrite Hes, R1. apply Forall_app. split.
        - eapply Forall_impl; [exact Hw|]. intros e. apply error_well_formed_grow.
        - eapply Forall_impl; [exact Hall|]. intros e (Hid & Hn & Hs).
          split; [done|]. exists (length (migration_runs w)), (closed_run p ctx job).
          split_and!; [done| |by rewrite Hn].
          rewrite lookup_app_r by done. by rewrite Nat.sub_diag. }
      destruct (IH w1 Hw1) as (Hinv & es' & Hes').
      split; [done|]. exists (es ++ es'). by rewrite Hes', Hes, <- app_assoc.
Qed.

(** X23 -- the error sink is append-only and stays consistent with the run
    ledger: [main] only adds entries to [migration_errors], and every entry
    has stage [load] or [validate] (never [extract] or [transform]) and the
    [run_id] of a run that exists and has the entry's [job_name]. *)
Theorem main_errors_well_formed (p : Process) (registry : list Job) (w : World) :
  Forall data_job registry ->
  Forall (error_well_formed (migration_runs w)) (migration_errors w) ->
  Forall (error_well_formed (migration_runs (main_on p registry w).2))
         (migration_errors (main_on p registry w).2)
  /\ exists es, migration_errors (main_on p registry w).2 = migration_errors w ++ es.
Proof.
  intros Hjs Hw. rewrite main_on_unfold.
  apply (forJobs_errors p _ _ (log SSelectStates (log SDdl w))); [|exact Hw].
  apply List.Forall_forall. intros j Hj.
  apply (proj1 (sort_by_level_In _ _)) in Hj.
  rewrite List.Forall_forall in Hjs. auto.
Qed.

End EngineMore.

(* ===================================================================== *)
(** ** The identity map through a whole run *)
(* ===================================================================== *)

Section MapInvariant.
Context `{Env : Environment}.

Lemma keeps_unique_map_kept {A} (c : M A) :
  (forall w, migration_map (c w).2 = migration_map w) -> keeps_unique c.
Proof. intros H w Hw. by rewrite H. Qed.

Lemma keeps_unique_ret {A} (a : A) : keeps_unique (ret a).
Proof. by apply keeps_unique_map_kept. Qed.

Lemma keeps_unique_bind {A B} (c : M A) (k : A -> M B) :
  keeps_unique c -> (forall a, keeps_unique (k a)) -> keeps_unique (bind c k).
Proof.
  intros Hc Hk w Hw. unfold bind. specialize (Hc w Hw).
  destruct (c w) as [[a|e] w1]; simpl in *; [by apply Hk|done].
Qed.

Lemma keeps_unique_try_catch {A} (c : M A) (h : string -> M A) :
  keeps_unique c -> (forall e, keeps_unique (h e)) -> keeps_unique (try_catch c h).
Proof.
  intros Hc Hh w Hw. unfold try_catch. specialize (Hc w Hw).
  destruct (c w) as [[a|e] w1]; simpl in *; [done|by apply Hh].
Qed.

Lemma keeps_unique_mapGet (e : string) (l : jsval) : keeps_unique (mapGet e l).
Proof. apply keeps_unique_map_kept. apply mapGet_map. Qed.

Lemma keeps_unique_resolveId (e : string) (l : jsval) : keeps_unique (resolveId e l).
Proof. apply keeps_unique_map_kept. apply resolveId_map. Qed.

Lemma keeps_unique_mapGetAny (e : string) (cs : list jsval) :
  keeps_unique (mapGetAny e cs).
Proof. apply keeps_unique_map_kept. apply mapGetAny_map. Qed.

Lemma keeps_unique_targetUpsert (table id : string) (refs : list (option string))
    (row : Row) :
  keeps_unique (targetUpsert table id refs row).
Proof. apply keeps_unique_map_kept. intros w. apply targetUpsert_map. Qed.

Lemma keeps_unique_targetSelect {A} (table : string) (q : Dest -> A) :
  keeps_unique (targetSelect table q).
Proof. by apply keeps_unique_map_kept. Qed.

Lemma keeps_unique_mapPut (e : string) (l : jsval) (n : string) :
  keeps_unique (mapPut e l n).
Proof. intros w. apply mapPut_one_legacy_per_id. Qed.

Lemma keeps_unique_mapPutBoth (e : string) (a b : jsval) (n : string) :
  keeps_unique (mapPutBoth e a b n).
Proof.
  unfold mapPutBoth. apply keeps_unique_bind.
  - destruct (normalizeLegacyId a); [apply keeps_unique_mapPut|apply keeps_unique_ret].
  - intros _. destruct (normalizeLegacyId b); [|apply keeps_unique_ret].
    case_bool_decide; [apply keeps_unique_mapPut|apply keeps_unique_ret].
Qed.

Lemma keeps_unique_getGenderIdFromLegacy (value : jsval) :
  keeps_unique (getGenderIdFromLegacy value).
Proof.
  unfold getGenderIdFromLegacy.
  destruct value; try apply keeps_unique_ret;
    (apply keeps_unique_bind;
     [destruct (numeric_like _); [apply keeps_unique_mapGet|apply keeps_unique_ret]|];
     intros mapped; destruct (truthy_id mapped); [apply keeps_unique_ret|];
     destruct (String.eqb _ _); [apply keeps_unique_ret|apply keeps_unique_targetSelect]).
Qed.

Lemma keeps_unique_recordError (runId : nat) (job : Job) (row : Row) (stage : Stage)
    (msg : string) :
  keeps_unique (recordError runId job row stage msg).
Proof. by apply keeps_unique_map_kept. Qed.

Lemma keeps_unique_console_log (l : ConsoleLine) : keeps_unique (console_log l).
Proof. by apply keeps_unique_map_kept. Qed.

Lemma keeps_unique_startRun (m : Mode) (name : string) : keeps_unique (startRun m name).
Proof. by apply keeps_unique_map_kept. Qed.

Lemma keeps_unique_endRun (runId : nat) (status : Status) (err : option string) :
  keeps_unique (endRun runId status err).
Proof. by apply keeps_unique_map_kept. Qed.

Lemma keeps_unique_sourceQuery (p : Process) (sql : string) :
  keeps_unique (sourceQuery p sql).
Proof.
  apply keeps_unique_map_kept. intros w. unfold sourceQuery. by destruct (source p sql).
Qed.

Ltac keeps_unique_step :=
  first
    [ apply keeps_unique_ret | apply keeps_unique_mapGet | apply keeps_unique_mapPut
    | apply keeps_unique_resolveId | apply keeps_unique_mapPutBoth
    | apply keeps_unique_mapGetAny | apply keeps_unique_targetUpsert
    | apply keeps_unique_targetSelect | apply keeps_unique_getGenderIdFromLegacy
    | apply keeps_unique_recordError | apply keeps_unique_console_log
    | apply keeps_unique_startRun | apply keeps_unique_endRun
    | apply keeps_unique_sourceQuery
    | apply keeps_unique_bind; [|intros ?]
    | apply keeps_unique_try_catch; [|intros ?]
    | match goal with
      | |- keeps_unique (if ?b then _ else _) => destruct b
      end
    | progress cbv zeta ].

Lemma jobs_keep_unique :
  Forall (fun j : Job => forall row ctx, keeps_unique (upsert j row ctx)) jobs.
Proof.
  unfold jobs.
  repeat (constructor;
          [intros row ctx; cbn [upsert]; unfold dimUpsert, getDefaultGenderId,
             getDefaultSemesterId; repeat keeps_unique_step|]).
  constructor.
Qed.

Lemma keeps_unique_forRows (p : Process) (job : Job) (ctx : Ctx) (runId : nat)
    (rows : list Row) (c : nat * nat) :
  (forall row ctx, keeps_unique (upsert job row ctx)) ->
  keeps_unique (forRows p job ctx runId rows c).
Proof.
  intros Hj. revert c. induction rows as [|row rows IH]; intros c; cbn [forRows].
  - apply keeps_unique_ret.
  - apply keeps_unique_bind; [|intros c'; apply IH].
    unfold processRow. pose proof (Hj row ctx). repeat keeps_unique_step; done.
Qed.

Lemma keeps_unique_runJob (p : Process) (job : Job) (ctx : Ctx) :
  (forall row ctx, keeps_unique (upsert job row ctx)) ->
  keeps_unique (runJob p job ctx).
Proof.
  intros Hj. unfold runJob. pose proof (keeps_unique_forRows p job ctx) as Hr.
  destruct (filtered_out ctx job); [apply keeps_unique_ret|].
  apply keeps_unique_bind; [apply keeps_unique_startRun|]. intros runId.
  apply keeps_unique_try_catch.
  - apply keeps_unique_bind; [apply keeps_unique_sourceQuery|]. intros rows.
    apply keeps_unique_bind; [by apply Hr|]. intros c.
    repeat keeps_unique_step.
  - intros e. repeat keeps_unique_step.
Qed.

Lemma keeps_unique_forJobs (p : Process) (js : list Job) (ctx : Ctx) :
  Forall (fun j : Job => forall row ctx, keeps_unique (upsert j row ctx)) js ->
  keeps_unique (forJobs p js ctx).
Proof.
  induction 1 as [|job rest Hj _ IH]; cbn [forJobs]; [apply keeps_unique_ret|].
  apply keeps_unique_bind; [by apply keeps_unique_runJob|]. intros _. exact IH.
Qed.

(** X24 -- a whole run over the eighteen jobs of the registry keeps the
    identity map within [unique (entity, new_id)]: if no canonical id is
    claimed by two legacy keys of one entity before [main], none is after
    it, whatever the legacy rows, the filter and the failures on the way. *)
Theorem main_keeps_unique (p : Process) (w : World) :
  one_legacy_per_id (migration_map w) ->
  one_legacy_per_id (migration_map (main p w).2).
Proof.
  intros Hw. unfold main. rewrite main_on_unfold.
  apply keeps_unique_forJobs; [|exact Hw].
  apply List.Forall_forall. intros j Hj.
  apply (proj1 (sort_by_level_In _ _)) in Hj.
  pose proof jobs_keep_unique as H. rewrite List.Forall_forall in H. auto.
Qed.

Lemma mapGet_mapped (e : string) (v : jsval) (w : World) :
  (mapGet e v w).1 = Ok (mapped (migration_map w) e v).
Proof. by destruct v. Qed.

(** X25 -- [getGenderIdFromLegacy] puts the identity map before the name: for
    a numeric (or numeric-like) legacy value whose mapping under [gender] is
    a non-empty id, it answers that id after the one map lookup, without a
    query on the [gender] table; and for [null] or [undefined] it answers
    [null] without any query. *)
Theorem getGenderIdFromLegacy_mapped (value : jsval) (id : string) (w : World) :
  (value = JNull \/ value = JUndefined ->
   getGenderIdFromLegacy value w = (Ok None, w))
  /\ (numeric_like value = true ->
      mapped (migration_map w) "gender" value = Some id -> id <> "" ->
      getGenderIdFromLegacy value w
      = (Ok (Some id), log (SSelectMap "gender" (js_String value)) w)).
Proof.
  split.
  - by intros [-> | ->].
  - intros Hn Hm Hid. unfold getGenderIdFromLegacy.
    destruct value as [| |n|s]; [done|done| |]; rewrite Hn; unfold bind;
      simpl in *; rewrite Hm; simpl;
      (destruct id as [|a id']; [done|reflexivity]).
Qed.

(** X26 -- the company upsert answers [false] exactly when the row's
    [user_id] has no non-empty mapping under [user] or its [ds_uf] (upper
    case; the empty string when falsy) names no known state; in every other
    case it goes on to write and answers [true] or raises. *)
Theorem company_skips_iff (row : Row) (ctx : Ctx) (w : World) :
  (upsert company_job row ctx w).1 = Ok false
  <-> (truthy_id (mapped (migration_map w) "user" (field row "user_id")) = false
       \/ truthy_id (stateByUf ctx !!
                       toUpperCase (js_String (js_or (field row "ds_uf") (JStr ""))))
          = false).
Proof.
  cbn [upsert company_job]. unfold bind at 1.
  pose proof (resolveId_map "company" (field row "co_seq_empresa") w) as Hmap.
  destruct (resolveId "company" (field row "co_seq_empresa") w) as [[id|e] w1] eqn:Hr.
  2:{ exfalso. revert Hr. unfold resolveId, bind.
      destruct (mapGet _ _ w) as [[[x|]|msg] w0] eqn:Hg; try discriminate.
      by destruct (field row "co_seq_empresa"). }
  cbn [snd] in Hmap. unfold bind at 1.
  pose proof (mapGet_mapped "user" (field row "user_id") w1) as Hg.
  destruct (mapGet "user" (field row "user_id") w1) as [r w2].
  cbn [fst] in Hg. subst r. rewrite Hmap. cbv zeta.
  destruct (truthy_id (mapped _ _ _)); cbn [negb orb].
  - destruct (truthy_id (stateByUf ctx !! _)); cbn [negb].
    + split; [|intros [?|?]; done].
      intros H. exfalso.
      match type of H with
      | (?c ?w0).1 = _ => destruct (c w0) as [r wu] eqn:Hc
      end.
      cbn [fst] in H. subst r. revert Hc.
      apply (never_false_bind _ _ (fun _ => never_false_bind _ _
                                              (fun _ => never_false_ret_true))).
    + split; [by right|done].
  - split; [by left|done].
Qed.

End MapInvariant.

(* ===================================================================== *)
(** ** The further properties on the demo database *)
(* ===================================================================== *)

(** A user key with blanks around it. *)
Lemma normalizeLegacyId_normal_witness :
  normalizeLegacyId (JStr " 7 ") = Some "7"
  /\ "7" <> "" /\ trim "7" = "7" /\ normalizeLegacyId (JStr "7") = Some "7".
Proof.
  assert (H : normalizeLegacyId (JStr " 7 ") = Some "7") by reflexivity.
  split; [exact H|]. exact (normalizeLegacyId_normal (JStr " 7 ") "7" H).
Defined.

(** A zip code of eight digits gets its hyphen. *)
Lemma normalizeZip_shape_witness :
  normalizeZip (JStr "01310100") = Some "01310-100"
  /\ String.length (digits_of (js_String (JStr "01310100"))) = 8%nat
  /\ String.length "01310-100" = 9%nat /\ String.get 5 "01310-100" = Some "-"%char.
Proof.
  assert (H : normalizeZip (JStr "01310100") = Some "01310-100") by reflexivity.
  assert (H8 : String.length (digits_of (js_String (JStr "01310100"))) = 8%nat)
    by reflexivity.
  split_and!; [exact H|exact H8|..];
    destruct (normalizeZip_shape (JStr "01310100")) as [_ Hz];
    destruct (Hz "01310-100" H) as (_ & _ & Hh & _);
    destruct (Hh H8) as [Hl Hg]; assumption.
Defined.

(** A CPF written with its punctuation. *)
Lemma normalizeCpf_digits_witness :
  normalizeCpf (JStr "123.456.789-09") = Some "12345678909"
  /\ all_digits "12345678909" = true
  /\ normalizeCpf (JStr "12345678909") = Some "12345678909".
Proof.
  assert (H : normalizeCpf (JStr "123.456.789-09") = Some "12345678909") by reflexivity.
  destruct (normalizeCpf_digits (JStr "123.456.789-09")) as [_ Hz].
  destruct (Hz "12345678909" H) as [Hd Hi].
  split_and!; [exact H|exact Hd|exact Hi].
Defined.

(** A phone of blanks only gives the default phone. *)
Lemma normalizePhone_no_white_witness :
  default_phone <> ""
  /\ normalizePhoneOrDefault (JStr "  ") default_phone <> "".
Proof.
  assert (H : default_phone <> "") by discriminate.
  split; [exact H|].
  destruct (normalizePhone_no_white (JStr "  ") default_phone) as (_ & Hf & _).
  exact (Hf H).
Defined.

(** A name with blanks around it. *)
Lemma sanitizeOptionalString_normal_witness :
  sanitizeOptionalString (JStr " a ") = Some "a"
  /\ "a" <> "" /\ no_nul "a" = true /\ trim "a" = "a"
  /\ sanitizeOptionalString (JStr "a") = Some "a".
Proof.
  assert (H : sanitizeOptionalString (JStr " a ") = Some "a") by reflexivity.
  split; [exact H|]. exact (sanitizeOptionalString_normal (JStr " a ") "a" H).
Defined.

(** A level the function does not know. *)
Lemma mapLanguageLevel_range_witness :
  toLowerCase (trim (js_String (nullish (JStr "Fluente") (JStr "")))) = "fluente"
  /\ mapLanguageLevel (JStr "Fluente") = Some "beginner".
Proof.
  split; [reflexivity|].
  pose proof (mapLanguageLevel_range (JStr "Fluente")) as H. cbv zeta in H.
  destruct H as (_ & _ & H). apply H.
  - discriminate.
  - vm_compute. intros Hin.
    repeat (destruct Hin as [Hin|Hin]; [discriminate Hin|]). exact Hin.
Defined.

(** Two languages in one string. *)
Lemma toStringArray_entries_witness :
  toStringArray (JScalar (JStr "a, b")) = Some ["a"; "b"]
  /\ ["a"; "b"] <> []
  /\ Forall (fun s => s <> "" /\ no_nul s = true /\ trim s = s) ["a"; "b"].
Proof.
  assert (H : toStringArray (JScalar (JStr "a, b")) = Some ["a"; "b"])
    by (vm_compute; reflexivity).
  split; [exact H|]. exact (toStringArray_entries (JScalar (JStr "a, b")) ["a"; "b"] H).
Defined.

(** A user with a numeric key only. *)
Lemma mapPutBoth_dedupe_witness :
  normalizeLegacyId (JStr " 7 ") = Some "7"
  /\ normalizeLegacyId JNull = None
  /\ mapPutBoth "user" (JStr " 7 ") JNull "N" Demo.w0
     = mapPut "user" (JStr "7") "N" Demo.w0.
Proof.
  assert (Ha : normalizeLegacyId (JStr " 7 ") = Some "7") by reflexivity.
  assert (Hb : normalizeLegacyId JNull = None) by reflexivity.
  split_and!; [exact Ha|exact Hb|].
  destruct (mapPutBoth_dedupe "user" (JStr " 7 ") JNull "N" Demo.w0) as [_ H].
  apply (H "7"). left. split; [exact Ha|right; exact Hb].
Defined.

(** User 7, committed under a padded key, is found under the number 7. *)
Lemma mapPutBoth_then_mapGetAny_witness :
  mapPutBoth "user" (JStr " 7 ") JNull "N" Demo.w0 = (Ok tt, Fixtures.w_padded)
  /\ "N" <> ""
  /\ (mapGetAny "user" [JNum 7; JStr "x"] Fixtures.w_padded).1 = Ok (Some "N").
Proof.
  assert (H : mapPutBoth "user" (JStr " 7 ") JNull "N" Demo.w0
              = (Ok tt, Fixtures.w_padded)) by (vm_compute; reflexivity).
  assert (Hn : "N" <> "") by discriminate.
  split_and!; [exact H|exact Hn|].
  destruct (mapPutBoth_then_mapGetAny "user" (JStr " 7 ") JNull "N" Demo.w0
              Fixtures.w_padded H Hn) as [_ Hg].
  apply (Hg (JNum 7) "7" [JStr "x"]); [reflexivity|left; reflexivity].
Defined.

(** State 1 on a fresh target, resolved twice without a commit. *)
Lemma resolveId_mints_until_committed_witness :
  migration_map Demo.w0 !! ("state", js_String (KNum 1)) = None
  /\ (resolveId "state" (KNum 1) Demo.w0).1 = Ok "uuid-0"
  /\ (resolveId "state" (KNum 1) (resolveId "state" (KNum 1) Demo.w0).2).1 = Ok "uuid-1".
Proof.
  assert (H : migration_map Demo.w0 !! ("state", js_String (KNum 1)) = None)
    by reflexivity.
  split; [exact H|].
  destruct (resolveId_mints_until_committed "state" (KNum 1) Demo.w0) as [_ Hr].
  destruct (Hr H) as (H1 & H2 & _). split; [exact H1|exact H2].
Defined.

(** State 1 migrated, then migrated again. *)
Lemma dimUpsert_rerun_witness :
  field Demo.sp "id" = key_val (KNum 1)
  /\ dimUpsert "state" Demo.sp Demo.ctx0 Demo.w0 = (Ok true, Fixtures.w_sp_done)
  /\ minted (dimUpsert "state" Demo.sp Demo.ctx0 Fixtures.w_sp_done).2
     = minted Fixtures.w_sp_done
  /\ migration_map (dimUpsert "state" Demo.sp Demo.ctx0 Fixtures.w_sp_done).2
     = migration_map Fixtures.w_sp_done.
Proof.
  assert (H1 : field Demo.sp "id" = key_val (KNum 1)) by reflexivity.
  assert (H2 : dimUpsert "state" Demo.sp Demo.ctx0 Demo.w0 = (Ok true, Fixtures.w_sp_done))
    by (vm_compute; reflexivity).
  split_and!; [exact H1|exact H2|..];
    destruct (dimUpsert_rerun "state" Demo.sp (KNum 1) Demo.ctx0 Demo.ctx0 Demo.w0
                Fixtures.w_sp_done Fixtures.w_sp_done H1 H2 eq_refl)
      as (id & _ & Hm & Hc & _); assumption.
Defined.

(** A state row without an id is given a new id at every run. *)
Lemma dimUpsert_without_id_witness :
  (field Fixtures.no_id "id" = JNull \/ field Fixtures.no_id "id" = JUndefined)
  /\ minted (dimUpsert "state" Fixtures.no_id Demo.ctx0 Fixtures.w_sp_done).2
     = S (minted Fixtures.w_sp_done).
Proof.
  assert (H : field Fixtures.no_id "id" = JNull \/ field Fixtures.no_id "id" = JUndefined)
    by (left; reflexivity).
  split; [exact H|].
  destruct (dimUpsert_without_id "state" Fixtures.no_id Demo.ctx0 Fixtures.w_sp_done H)
    as (Hm & _). exact Hm.
Defined.


(** The user table is missing from the demo database. *)
Lemma runJob_extraction_failure_witness :
  filtered_out Demo.ctx0 user_job = false
  /\ source Demo.process (extractSql user_job (ctx_mode Demo.ctx0))
     = inl "table does not exist"
  /\ (runJob Demo.process user_job Demo.ctx0 Demo.w0).1 = Ok tt
  /\ migration_errors (runJob Demo.process user_job Demo.ctx0 Demo.w0).2 = [].
Proof.
  assert (H1 : filtered_out Demo.ctx0 user_job = false) by reflexivity.
  assert (H2 : source Demo.process (extractSql user_job (ctx_mode Demo.ctx0))
               = inl "table does not exist") by reflexivity.
  split_and!; [exact H1|exact H2|..];
    destruct (runJob_extraction_failure Demo.process user_job Demo.ctx0 Demo.w0
                "table does not exist" H1 H2) as (Hok & _ & _ & He & _); assumption.
Defined.

(** The filter [users] names no job of the demo registry. *)
Lemma main_unknown_table_witness :
  tableFilter Fixtures.filtered_process = Some "users"
  /\ "users" <> ""
  /\ (forall j, In j Demo.registry -> key j <> "users")
  /\ main_on Fixtures.filtered_process Demo.registry Demo.w0
     = (Ok tt, log SSelectStates (log SDdl Demo.w0)).
Proof.
  assert (H1 : tableFilter Fixtures.filtered_process = Some "users") by reflexivity.
  assert (H2 : "users" <> "") by discriminate.
  assert (H3 : forall j, In j Demo.registry -> key j <> "users").
  { intros j Hj. simpl in Hj.
    repeat (destruct Hj as [<-|Hj]; [discriminate|]). destruct Hj. }
  split_and!; [exact H1|exact H2|exact H3|].
  exact (main_unknown_table Fixtures.filtered_process Demo.registry Demo.w0 "users"
           H1 H2 H3).
Defined.


(** A list in level order is left as it is. *)
Lemma sort_by_level_stable_witness :
  StronglySorted by_level [state_job; company_job]
  /\ sort_by_level [state_job; company_job] = [state_job; company_job].
Proof.
  assert (H : StronglySorted by_level [state_job; company_job]).
  { repeat constructor. unfold by_level. simpl. lia. }
  split; [exact H|].
  destruct (sort_by_level_stable [state_job; company_job]) as (_ & Hs & _).
  exact (Hs H).
Defined.

(** The one state of the demo destination. *)
Lemma bootstrapStates_last_row_witness :
  select_states (dest Demo.w0) = [] ++ (JStr "sp", "state-sp") :: []
  /\ exists m,
       bootstrapStates Demo.w0 = (Ok m, log SSelectStates Demo.w0)
       /\ m !! "SP" = Some "state-sp"
       /\ m !! "RJ" = None.
Proof.
  assert (H : select_states (dest Demo.w0) = [] ++ (JStr "sp", "state-sp") :: [])
    by reflexivity.
  split; [exact H|].
  destruct (bootstrapStates_last_row Demo.w0) as (m & Hb & Hlast & Hnone).
  exists m. split_and!; [exact Hb| |].
  - apply (Hlast [] (JStr "sp") "state-sp" [] H). constructor.
  - apply Hnone. rewrite H. repeat constructor. discriminate.
Defined.

(** [main] on the demo database: the two entries written refer to runs 1
    and 3 and are well formed. *)
Lemma main_errors_well_formed_witness :
  Forall data_job Demo.registry
  /\ Forall (error_well_formed (migration_runs Demo.w0)) (migration_errors Demo.w0)
  /\ Forall (error_well_formed
               (migration_runs (main_on Demo.process Demo.registry Demo.w0).2))
            (migration_errors (main_on Demo.process Demo.registry Demo.w0).2).
Proof.
  assert (H : Forall (error_well_formed (migration_runs Demo.w0))
                     (migration_errors Demo.w0)) by constructor.
  split_and!; [exact registry_data|exact H|].
  destruct (main_errors_well_formed Demo.process Demo.registry Demo.w0 registry_data H)
    as [Hwf _]. exact Hwf.
Defined.

(** [main] on the demo database, from the empty identity map. *)
Lemma main_keeps_unique_witness :
  one_legacy_per_id (migration_map Demo.w0)
  /\ one_legacy_per_id (migration_map (main Demo.process Demo.w0).2).
Proof.
  assert (H : one_legacy_per_id (migration_map Demo.w0)).
  { intros e l1 l2 n H1 _. simpl in H1. rewrite lookup_empty in H1. discriminate H1. }
  split; [exact H|]. exact (main_keeps_unique Demo.process Demo.w0 H).
Defined.

(** Gender 1 migrated: the identity map answers. *)
Lemma getGenderIdFromLegacy_mapped_witness :
  numeric_like (JNum 1) = true
  /\ mapped (migration_map Fixtures.w_gender) "gender" (JNum 1) = Some "G"
  /\ "G" <> ""
  /\ getGenderIdFromLegacy (JNum 1) Fixtures.w_gender
     = (Ok (Some "G"), log (SSelectMap "gender" "1") Fixtures.w_gender).
Proof.
  assert (H1 : numeric_like (JNum 1) = true) by reflexivity.
  assert (H2 : mapped (migration_map Fixtures.w_gender) "gender" (JNum 1) = Some "G")
    by (vm_compute; reflexivity).
  assert (H3 : "G" <> "") by discriminate.
  split_and!; [exact H1|exact H2|exact H3|].
  destruct (getGenderIdFromLegacy_mapped (JNum 1) "G" Fixtures.w_gender) as [_ Hg].
  exact (Hg H1 H2 H3).
Defined.

(** The company of the demo database: its user was never migrated. *)
Lemma company_skips_iff_witness :
  truthy_id (mapped (migration_map Demo.w0) "user" (field Demo.acme "user_id")) = false
  /\ (upsert company_job Demo.acme Demo.ctx0 Demo.w0).1 = Ok false.
Proof.
  assert (H : truthy_id (mapped (migration_map Demo.w0) "user" (field Demo.acme "user_id"))
              = false) by reflexivity.
  split; [exact H|].
  apply (proj2 (company_skips_iff Demo.acme Demo.ctx0 Demo.w0)). left. exact H.
Defined.
